(** * Game of Life on a sparse, string-keyed cell set (script.js)

    A shallow embedding of the simulation core of [script.js]: the key
    encoding of cells, the generation advance, the camera and zoom
    arithmetic, the frame loop and the event handlers, followed by the
    properties of these functions.

    Modelling conventions.
    - A cell coordinate is a JavaScript number holding an integer; it is
      embedded as [option Z], where [None] stands for [NaN] (what the
      arithmetic of the script yields on a key that does not parse).
      A sum of two such numbers is rounded as a binary64 sum is: it is the
      exact sum up to magnitude 2^53 and the nearest number with a 53-bit
      significand, ties to even, beyond.  Properties that need exact
      neighbours say so by a bound on the coordinates.
    - Camera offsets, zoom, pointer positions and timestamps are
      JavaScript numbers that are not integers in general; they are embedded
      as exact rationals [Q].  Rounding of these is not part of the model:
      a property of the camera is stated either about the very expression
      the script evaluates, or for values on which the script's arithmetic
      is exact.
    - [aliveCells] is a JavaScript [Set] of strings: a duplicate-free
      sequence in insertion order, which is also the order [forEach] visits.
    - The global variables of the script form the record [State]; every
      handler is a function from [State] to [State].  [Math.random] is an
      oracle handed to the click handler. *)

From Stdlib Require Import ZArith QArith Qround Qminmax List Bool Lia Lqa Permutation.
From Stdlib Require Import Strings.Ascii Strings.String.
From Stdlib Require Import Numbers.DecimalString Numbers.DecimalZ Numbers.DecimalPos.
Import ListNotations.

#[local] Open Scope Z_scope.

(** ** JavaScript numbers used as cell coordinates *)

Module JSNum.

(** An integer, or [NaN]. *)
Definition num := option Z.

Definition NaN : num := None.

(** 2^53: up to this magnitude every integer is a binary64 number. *)
Definition twoP53 : Z := 9007199254740992.

(** The magnitude above 2^53 rounded to a 53-bit significand, ties to
    even: [u] is the gap between neighbouring numbers at that size. *)
Definition roundMagnitude (a : Z) : Z :=
  let u := 2 ^ (Z.log2 a - 52) in
  let q := a / u in
  let r := a mod u in
  (if (2 * r <? u) || ((2 * r =? u) && Z.even q) then q else q + 1) * u.

(** The binary64 number nearest to an integer.  (Overflow to infinity,
    from 2^1024, is left out: the script only adds offsets of magnitude at
    most 50 to its coordinates.) *)
Definition roundDouble (z : Z) : Z :=
  if Z.abs z <=? twoP53 then z else Z.sgn z * roundMagnitude (Z.abs z).

(** [a + b] on numbers: the rounded sum; [NaN] is absorbing. *)
Definition add (a b : num) : num :=
  match a, b with
  | Some x, Some y => Some (roundDouble (x + y))
  | _, _ => None
  end.

(** The string a template literal [`${x}`] produces: the decimal digits of
    an integer, with a leading minus sign when negative, and ["NaN"].
    (All digits are printed; JavaScript turns to exponent form from 10^21
    on.) *)
Definition toString (a : num) : string :=
  match a with
  | Some x => NilZero.string_of_int (Z.to_int x)
  | None => "NaN"%string
  end.

(** [Number(s)] on the strings the script builds: the empty string is 0,
    an optional minus sign followed by decimal digits is that integer, and
    every other string is answered [NaN].  (The remaining numeric literals
    of JavaScript -- white space, a plus sign, fractions, exponents,
    other radixes -- never occur in a key.) *)
Definition Number (s : string) : num :=
  match s with
  | EmptyString => Some 0
  | _ => option_map Z.of_int (NilZero.int_of_string s)
  end.

End JSNum.

Import JSNum.

(** ** Strings: [split(',')] *)

Definition comma : ascii := ","%char.

(** [s.split(',')]: the pieces between commas; never empty. *)
Fixpoint split_comma (s : string) : list string :=
  match s with
  | EmptyString => [EmptyString]
  | String c rest =>
      if Ascii.eqb c comma then EmptyString :: split_comma rest
      else match split_comma rest with
           | piece :: pieces => String c piece :: pieces
           | [] => [String c EmptyString]
           end
  end.

(** Whether a string contains a comma. *)
Fixpoint has_comma (s : string) : bool :=
  match s with
  | EmptyString => false
  | String c rest => Ascii.eqb c comma || has_comma rest
  end.

(** ** Cell keys *)

(** [cellKey(x, y)] is [`${x},${y}`]. *)
Definition cellKey (x y : num) : string :=
  (toString x ++ String comma (toString y))%string.

(** [parseKey(k)] is [k.split(',').map(Number)]. *)
Definition parseKey (k : string) : list num :=
  map Number (split_comma k).

(** The array pattern [let [x, y] = parseKey(key)]: the first two entries,
    a missing entry being [undefined], which the arithmetic of every later
    use turns into [NaN]. *)
Definition destructure2 (l : list num) : num * num :=
  (nth 0 l NaN, nth 1 l NaN).

(** The key of a cell with integer coordinates. *)
Definition keyOf (c : Z * Z) : string :=
  cellKey (Some (fst c)) (Some (snd c)).

(** ** The JavaScript [Set] of strings *)

Module JSSet.

Definition t := list string.

Definition empty : t := [].

Definition has (s : t) (k : string) : bool :=
  existsb (String.eqb k) s.

(** [s.add(k)]: appended at the end unless already present. *)
Definition add (s : t) (k : string) : t :=
  if has s k then s else s ++ [k].

(** [s.delete(k)]. *)
Definition delete (s : t) (k : string) : t :=
  filter (fun k' => negb (String.eqb k k')) s.

(** [s.forEach(f)] for a callback that updates an accumulator. *)
Definition forEach {A : Type} (s : t) (f : A -> string -> A) (acc : A) : A :=
  fold_left f s acc.

End JSSet.

(** ** Sparse grid store and generation engine *)

(** The offsets [(dx, dy)] the two nested loops
    [for dy = -1..1] / [for dx = -1..1] visit, in that order, the pair
    [(0, 0)] being skipped by [continue]. *)
Definition offsets : list (Z * Z) :=
  flat_map
    (fun dy =>
       flat_map
         (fun dx => if (dx =? 0) && (dy =? 0) then [] else [(dx, dy)])
         [-1; 0; 1])
    [-1; 0; 1].

(** [initGlider(x, y)]: the five cells are added in the order of [coords];
    the sums are the script's, rounded. *)
Definition initGlider (x y : Z) (aliveCells : JSSet.t) : JSSet.t :=
  let coords :=
    [ (roundDouble (x + 1), y);
      (roundDouble (x + 2), roundDouble (y + 1));
      (x, roundDouble (y + 2));
      (roundDouble (x + 1), roundDouble (y + 2));
      (roundDouble (x + 2), roundDouble (y + 2)) ] in
  fold_left
    (fun cells '(cx, cy) => JSSet.add cells (cellKey (Some cx) (Some cy)))
    coords aliveCells.

(** [getNeighbors(x, y)], reading the global [aliveCells]. *)
Definition getNeighbors (aliveCells : JSSet.t) (x y : num) : Z :=
  fold_left
    (fun neighbors '(dx, dy) =>
       if JSSet.has aliveCells (cellKey (add x (Some dx)) (add y (Some dy)))
       then neighbors + 1 else neighbors)
    offsets 0.

(** The first [forEach] of [nextGen]: every live key and the keys of its
    eight neighbours. *)
Definition candidatesOf (aliveCells : JSSet.t) : JSSet.t :=
  JSSet.forEach aliveCells
    (fun candidates key =>
       let '(x, y) := destructure2 (parseKey key) in
       fold_left
         (fun cands '(dx, dy) =>
            JSSet.add cands (cellKey (add x (Some dx)) (add y (Some dy))))
         offsets (JSSet.add candidates key))
    JSSet.empty.

(** [nextGen()], as a function from the value of [aliveCells] before the
    call to its value after it. *)
Definition nextGen (aliveCells : JSSet.t) : JSSet.t :=
  let candidates := candidatesOf aliveCells in
  JSSet.forEach candidates
    (fun newAlive key =>
       let '(x, y) := destructure2 (parseKey key) in
       let alive := JSSet.has aliveCells key in
       let neighbors := getNeighbors aliveCells x y in
       if alive && ((neighbors =? 2) || (neighbors =? 3)) then
         JSSet.add newAlive key
       else if negb alive && (neighbors =? 3) then
         JSSet.add newAlive key
       else newAlive)
    JSSet.empty.

(** The test the second pass of [nextGen] applies to a candidate key. *)
Definition survives (aliveCells : JSSet.t) (key : string) : bool :=
  let '(x, y) := destructure2 (parseKey key) in
  let alive := JSSet.has aliveCells key in
  let neighbors := getNeighbors aliveCells x y in
  (alive && ((neighbors =? 2) || (neighbors =? 3)))
  || (negb alive && (neighbors =? 3)).

(** The live set holding the cells of a list: each key added in turn. *)
Definition setOfCells (cells : list (Z * Z)) : JSSet.t :=
  fold_left (fun s c => JSSet.add s (keyOf c)) cells JSSet.empty.

(** ** Coordinate system *)

#[local] Open Scope Q_scope.

(** [a < b] on numbers, as a test. *)
Definition Qltb (a b : Q) : bool := negb (Qle_bool b a).

(** World to screen, one axis: [Math.floor((x - cameraX) * zoom)] of
    [drawGrid]. *)
Definition worldToScreen1 (camera zoom : Q) (w : Z) : Z :=
  Qfloor ((inject_Z w - camera) * zoom).

(** Screen to world, one axis: [Math.floor(cameraX + mx / zoom)] of
    [onClick]. *)
Definition screenToWorld1 (camera zoom : Q) (s : Q) : Z :=
  Qfloor (camera + s / zoom).



(** ** Global state *)

(** The [let] variables of the script.  [dragStartX] and [dragStartY] are
    declared without a value and only read while [isDragging] holds, that
    is after a press has set them; they start at 0 here.  [generation] is a
    ghost counter, not a variable of the script: the number of calls to
    [nextGen] so far. *)
Record State : Type := mkState {
  width : Q;
  height : Q;
  aliveCells : JSSet.t;
  cameraX : Q;
  cameraY : Q;
  zoom : Q;
  paused : bool;
  delay : Q;
  lastFrame : Q;
  isDragging : bool;
  dragStartX : Q;
  dragStartY : Q;
  fps : Z;
  lastFpsUpdate : Q;
  framesThisSecond : Z;
  generation : nat
}.

Definition set_size (w h : Q) (s : State) : State :=
  mkState w h (aliveCells s) (cameraX s) (cameraY s) (zoom s) (paused s)
    (delay s) (lastFrame s) (isDragging s) (dragStartX s) (dragStartY s)
    (fps s) (lastFpsUpdate s) (framesThisSecond s) (generation s).

Definition set_aliveCells (cells : JSSet.t) (s : State) : State :=
  mkState (width s) (height s) cells (cameraX s) (cameraY s) (zoom s)
    (paused s) (delay s) (lastFrame s) (isDragging s) (dragStartX s)
    (dragStartY s) (fps s) (lastFpsUpdate s) (framesThisSecond s)
    (generation s).

Definition set_camera (cx cy : Q) (s : State) : State :=
  mkState (width s) (height s) (aliveCells s) cx cy (zoom s) (paused s)
    (delay s) (lastFrame s) (isDragging s) (dragStartX s) (dragStartY s)
    (fps s) (lastFpsUpdate s) (framesThisSecond s) (generation s).

Definition set_zoom (z : Q) (s : State) : State :=
  mkState (width s) (height s) (aliveCells s) (cameraX s) (cameraY s) z
    (paused s) (delay s) (lastFrame s) (isDragging s) (dragStartX s)
    (dragStartY s) (fps s) (lastFpsUpdate s) (framesThisSecond s)
    (generation s).

Definition set_paused (b : bool) (s : State) : State :=
  mkState (width s) (height s) (aliveCells s) (cameraX s) (cameraY s)
    (zoom s) b (delay s) (lastFrame s) (isDragging s) (dragStartX s)
    (dragStartY s) (fps s) (lastFpsUpdate s) (framesThisSecond s)
    (generation s).

Definition set_delay (d : Q) (s : State) : State :=
  mkState (width s) (height s) (aliveCells s) (cameraX s) (cameraY s)
    (zoom s) (paused s) d (lastFrame s) (isDragging s) (dragStartX s)
    (dragStartY s) (fps s) (lastFpsUpdate s) (framesThisSecond s)
    (generation s).

Definition set_lastFrame (t : Q) (s : State) : State :=
  mkState (width s) (height s) (aliveCells s) (cameraX s) (cameraY s)
    (zoom s) (paused s) (delay s) t (isDragging s) (dragStartX s)
    (dragStartY s) (fps s) (lastFpsUpdate s) (framesThisSecond s)
    (generation s).

Definition set_isDragging (b : bool) (s : State) : State :=
  mkState (width s) (height s) (aliveCells s) (cameraX s) (cameraY s)
    (zoom s) (paused s) (delay s) (lastFrame s) b (dragStartX s)
    (dragStartY s) (fps s) (lastFpsUpdate s) (framesThisSecond s)
    (generation s).

Definition set_dragStart (x y : Q) (s : State) : State :=
  mkState (width s) (height s) (aliveCells s) (cameraX s) (cameraY s)
    (zoom s) (paused s) (delay s) (lastFrame s) (isDragging s) x y
    (fps s) (lastFpsUpdate s) (framesThisSecond s) (generation s).

Definition set_fpsCounters (f : Z) (upd : Q) (frames : Z) (s : State) : State :=
  mkState (width s) (height s) (aliveCells s) (cameraX s) (cameraY s)
    (zoom s) (paused s) (delay s) (lastFrame s) (isDragging s)
    (dragStartX s) (dragStartY s) f upd frames (generation s).

Definition set_generation (n : nat) (s : State) : State :=
  mkState (width s) (height s) (aliveCells s) (cameraX s) (cameraY s)
    (zoom s) (paused s) (delay s) (lastFrame s) (isDragging s)
    (dragStartX s) (dragStartY s) (fps s) (lastFpsUpdate s)
    (framesThisSecond s) n.

(** A call [nextGen()] on the globals: [aliveCells] is replaced, and the
    ghost counter records the call. *)
Definition callNextGen (s : State) : State :=
  set_generation (S (generation s))
    (set_aliveCells (nextGen (aliveCells s)) s).

(** [resizeCanvas()], given [window.innerWidth] and [window.innerHeight];
    the canvas is taken to hand back the size it was given. *)
Definition resizeCanvas (innerWidth innerHeight : Q) (s : State) : State :=
  set_size innerWidth (innerHeight - 55) s.

(** The state once the script has run to its last line: the declared
    initial values, [resizeCanvas()] and [initGlider(0, 0)]. *)
Definition startup (innerWidth innerHeight : Q) : State :=
  resizeCanvas innerWidth innerHeight
    (mkState 0 0 (initGlider 0 0 JSSet.empty) (-40) (-30) 10 false 0 0
       false 0 0 0%Z 0 0%Z 0%nat).

(** ** Rendering *)

(** A [ctx.fillRect(x, y, w, h)] instruction. *)
Record FillRect : Type := mkFillRect {
  rect_x : Z;
  rect_y : Z;
  rect_w : Q;
  rect_h : Q
}.

(** The rectangles [drawGrid()] fills for live cells, in drawing order.
    A key whose coordinates are [NaN] fails every comparison and draws
    nothing. *)
Definition drawGrid (s : State) : list FillRect :=
  flat_map
    (fun key =>
       match destructure2 (parseKey key) with
       | (Some x, Some y) =>
           let sx := worldToScreen1 (cameraX s) (zoom s) x in
           let sy := worldToScreen1 (cameraY s) (zoom s) y in
           if Qle_bool 0 (inject_Z sx + zoom s)
              && Qle_bool 0 (inject_Z sy + zoom s)
              && Qltb (inject_Z sx) (width s)
              && Qltb (inject_Z sy) (height s)
           then [mkFillRect sx sy (zoom s) (zoom s)]
           else []
       | _ => []
       end)
    (aliveCells s).

(** ** Frame loop *)

(** [loop(timestamp)]; drawing and the request for the next frame leave
    the globals alone. *)
Definition loop (timestamp : Q) (s : State) : State :=
  let s :=
    if Qltb (lastFpsUpdate s + 1000) timestamp
    then set_fpsCounters (framesThisSecond s) timestamp 0%Z s
    else s in
  let s :=
    set_fpsCounters (fps s) (lastFpsUpdate s) (framesThisSecond s + 1)%Z s in
  let s :=
    if Qeq_bool (lastFrame s) 0 then set_lastFrame timestamp s else s in
  if negb (paused s) && Qltb (delay s) (timestamp - lastFrame s)
  then set_lastFrame timestamp (callNextGen s)
  else s.

(** ** Event handlers *)

(** What the handlers read of a pointer or wheel event. *)
Record MouseEvent : Type := mkMouseEvent {
  button : Z;
  clientX : Q;
  clientY : Q;
  deltaY : Q
}.

(** What the handlers read of [canvas.getBoundingClientRect()]. *)
Record DOMRect : Type := mkDOMRect {
  left : Q;
  top : Q
}.

Definition onResize (innerWidth innerHeight : Q) (s : State) : State :=
  resizeCanvas innerWidth innerHeight s.

Definition onMouseDown (e : MouseEvent) (s : State) : State :=
  if negb (button e =? 0)%Z then s
  else set_dragStart (clientX e) (clientY e) (set_isDragging true s).

Definition onMouseUp (e : MouseEvent) (s : State) : State :=
  if negb (button e =? 0)%Z then s
  else set_isDragging false s.

Definition onMouseLeave (s : State) : State :=
  set_isDragging false s.

Definition onMouseMove (e : MouseEvent) (s : State) : State :=
  if isDragging s then
    let dx := (clientX e - dragStartX s) / zoom s in
    let dy := (clientY e - dragStartY s) / zoom s in
    set_dragStart (clientX e) (clientY e)
      (set_camera (cameraX s - dx) (cameraY s - dy) s)
  else s.

(** A loop [for (let x = lo; x <= hi; x++) body]: each turn tests the
    condition, runs the body and replaces the counter by the rounded
    [x + 1].  [fuel] bounds the number of turns; [None] is a loop still
    running when the fuel is spent, or a body that does not return. *)
Fixpoint forLoop {A : Type} (fuel : nat) (x hi : Z)
  (body : A -> Z -> option A) (acc : A) : option A :=
  if (x <=? hi)%Z then
    match fuel with
    | O => None
    | S fuel' =>
        match body acc x with
        | Some acc' => forLoop fuel' (roundDouble (x + 1)%Z) hi body acc'
        | None => None
        end
    end
  else Some acc.

(** The loop with the fuel of a counter that moves up by at least one each
    turn, which is enough for every loop that ends (see
    [forLoop_fuel_enough]). *)
Definition forRange {A : Type} (lo hi : Z) (body : A -> Z -> option A)
  (acc : A) : option A :=
  forLoop (Z.to_nat (hi - lo + 1)%Z) lo hi body acc.

(** The integers [lo, lo + 1, ..., hi], in order. *)
Definition Zrange (lo hi : Z) : list Z :=
  map (fun i => (lo + Z.of_nat i)%Z) (seq 0 (Z.to_nat (hi - lo + 1))).

(** The body of the inner loop of [onClick] on the pair of the live set and
    the number of calls to [Math.random()] made so far; [random n] is the
    value of call number [n]. *)
Definition paintCell (random : nat -> Q) (acc : JSSet.t * nat) (key : string)
  : JSSet.t * nat :=
  let '(cells, n) := acc in
  let alive := Qfloor (random n * 2) in
  (if negb (alive =? 0)%Z then JSSet.add cells key
   else if JSSet.has cells key then JSSet.delete cells key else cells,
   S n).

(** The two nested loops of [onClick] around the anchor [(wx, wy)], the
    bounds [wx - 50], [wx + 50], [wy - 50], [wy + 50] being rounded
    differences and sums.  [None]: the loops never end. *)
Definition paintLoop (random : nat -> Q) (wx wy : Z) (cells : JSSet.t)
  : option (JSSet.t * nat) :=
  forRange (roundDouble (wx - 50)%Z) (roundDouble (wx + 50)%Z)
    (fun acc x =>
       forRange (roundDouble (wy - 50)%Z) (roundDouble (wy + 50)%Z)
         (fun acc y =>
            Some (paintCell random acc (cellKey (Some x) (Some y))))
         acc)
    (cells, 0%nat).

(** [onClick(e)].  When the loops never end the handler never returns and
    the script handles no later event; the state is then left as it
    was. *)
Definition onClick (rect : DOMRect) (random : nat -> Q) (e : MouseEvent)
  (s : State) : State :=
  if isDragging s || negb (paused s) then s
  else
    let mx := clientX e - left rect in
    let my := clientY e - top rect in
    let wx := screenToWorld1 (cameraX s) (zoom s) mx in
    let wy := screenToWorld1 (cameraY s) (zoom s) my in
    match paintLoop random wx wy (aliveCells s) with
    | Some (cells, _) => set_aliveCells cells s
    | None => s
    end.

(** What the two loops do when both counters move up by one each turn:
    the cells of the square, column by column. *)
Definition paintSquare (random : nat -> Q) (wx wy : Z) (cells : JSSet.t)
  : JSSet.t * nat :=
  fold_left
    (fun acc x =>
       fold_left
         (fun acc y => paintCell random acc (cellKey (Some x) (Some y)))
         (Zrange (wy - 50) (wy + 50)) acc)
    (Zrange (wx - 50) (wx + 50)) (cells, 0%nat).

Definition onWheel (rect : DOMRect) (e : MouseEvent) (s : State) : State :=
  let mouseX := clientX e - left rect in
  let mouseY := clientY e - top rect in
  let wxBeforeZoom := cameraX s + mouseX / zoom s in
  let wyBeforeZoom := cameraY s + mouseY / zoom s in
  let zoomFactor := if Qltb (deltaY e) 0 then 11 # 10 else 9 # 10 in
  let s := set_zoom (Qmin 50 (Qmax 1 (zoom s * zoomFactor))) s in
  set_camera (wxBeforeZoom - mouseX / zoom s) (wyBeforeZoom - mouseY / zoom s) s.

Definition onPauseClick (s : State) : State :=
  set_paused (negb (paused s)) s.

Definition onSpeedUpClick (s : State) : State :=
  set_delay (Qmax 0 (delay s - 20)) s.

Definition onSpeedDownClick (s : State) : State :=
  set_delay (delay s + 20) s.

(** ** Dispatch *)

(** What the browser delivers to the listeners the script registers, and
    the frame callback. *)
Inductive Event : Type :=
| Resize (innerWidth innerHeight : Q)
| MouseDown (e : MouseEvent)
| MouseUp (e : MouseEvent)
| MouseLeave
| MouseMove (e : MouseEvent)
| Click (rect : DOMRect) (random : nat -> Q) (e : MouseEvent)
| Wheel (rect : DOMRect) (e : MouseEvent)
| PauseClick
| SpeedUpClick
| SpeedDownClick
| Frame (timestamp : Q).

Definition handle (ev : Event) (s : State) : State :=
  match ev with
  | Resize w h => onResize w h s
  | MouseDown e => onMouseDown e s
  | MouseUp e => onMouseUp e s
  | MouseLeave => onMouseLeave s
  | MouseMove e => onMouseMove e s
  | Click rect random e => onClick rect random e s
  | Wheel rect e => onWheel rect e s
  | PauseClick => onPauseClick s
  | SpeedUpClick => onSpeedUpClick s
  | SpeedDownClick => onSpeedDownClick s
  | Frame t => loop t s
  end.

(** The state after a sequence of events, oldest first. *)
Definition run (evs : list Event) (s : State) : State :=
  fold_left (fun st ev => handle ev st) evs s.

(** The range the zoom is kept in. *)
Definition zoomInRange (z : Q) : Prop := 1 <= z <= 50.

(** ** The transition rule on integer cells, in the words of the specification *)

#[local] Open Scope Z_scope.

Definition cell_eqb (a b : Z * Z) : bool :=
  (fst a =? fst b) && (snd a =? snd b).

(** A cell is alive when it is a member of the live set. *)
Definition isAlive (live : list (Z * Z)) (c : Z * Z) : bool :=
  existsb (cell_eqb c) live.

(** The eight cells horizontally, vertically or diagonally adjacent. *)
Definition mooreNeighborhood (c : Z * Z) : list (Z * Z) :=
  let '(x, y) := c in
  [ (x - 1, y - 1); (x, y - 1); (x + 1, y - 1);
    (x - 1, y);                 (x + 1, y);
    (x - 1, y + 1); (x, y + 1); (x + 1, y + 1) ].

Definition countLiveNeighbors (live : list (Z * Z)) (c : Z * Z) : Z :=
  Z.of_nat (List.length (filter (isAlive live) (mooreNeighborhood c))).

(** A candidate is a live cell or a cell in the neighbourhood of one. *)
Definition isCandidate (live : list (Z * Z)) (c : Z * Z) : bool :=
  isAlive live c
  || existsb (fun d => existsb (cell_eqb c) (mooreNeighborhood d)) live.

(** Standard Life: survival on 2 or 3 live neighbours, birth on 3. *)
Definition lifeRule (alive : bool) (neighbors : Z) : bool :=
  if alive then (neighbors =? 2) || (neighbors =? 3) else neighbors =? 3.

(** The cells of the next generation, all read against [live]. *)
Definition liveNext (live : list (Z * Z)) (c : Z * Z) : bool :=
  isCandidate live c
  && lifeRule (isAlive live c) (countLiveNeighbors live c).


(** The keys [onClick] visits around [(wx, wy)], in the order of its loops. *)
Definition squareKeys (wx wy : Z) : list string :=
  flat_map
    (fun x => map (fun y => cellKey (Some x) (Some y))
                (Zrange (wy - 50) (wy + 50)))
    (Zrange (wx - 50) (wx + 50)).

(** A cell whose coordinates have magnitude at most [b]. *)
Definition inRange (b : Z) (c : Z * Z) : Prop :=
  Z.abs (fst c) <= b /\ Z.abs (snd c) <= b.

(** The largest magnitude of a live coordinate for which [nextGen] adds
    exactly: the neighbours of its candidates then stay within 2^53. *)
Definition exactBound : Z := twoP53 - 2.


(** ** Notions used to state further properties *)

(** Two sets with the same members, whatever the insertion order. *)
Definition sameMembers (s1 s2 : JSSet.t) : Prop :=
  forall k : string, In k s1 <-> In k s2.

(** Every key is the key of a cell with integer coordinates. *)
Definition wellFormed (s : JSSet.t) : Prop :=
  forall k : string, In k s -> exists c : Z * Z, k = keyOf c.

(** The cells a set holds, read back with [parseKey]. *)
Definition cellsOf (s : JSSet.t) : list (Z * Z) :=
  flat_map
    (fun key =>
       match destructure2 (parseKey key) with
       | (Some x, Some y) => [(x, y)]
       | _ => []
       end)
    s.

(** [n] calls of [nextGen()] in a row. *)
Definition advance (n : nat) (aliveCells : JSSet.t) : JSSet.t :=
  Nat.iter n nextGen aliveCells.

(** A cell moved by the vector [d]. *)
Definition shift (d c : Z * Z) : Z * Z :=
  (fst c + fst d, snd c + snd d).

(** The five cells [initGlider(x, y)] adds. *)
Definition gliderAt (x y : Z) : list (Z * Z) :=
  [ (x + 1, y); (x + 2, y + 1); (x, y + 2); (x + 1, y + 2); (x + 2, y + 2) ].

(** A 2 x 2 block with upper left corner [(x, y)]. *)
Definition blockAt (x y : Z) : list (Z * Z) :=
  [ (x, y); (x + 1, y); (x, y + 1); (x + 1, y + 1) ].

(** Three cells in a row, and in a column, centred on [(x, y)]. *)
Definition blinkerRow (x y : Z) : list (Z * Z) :=
  [ (x - 1, y); (x, y); (x + 1, y) ].

Definition blinkerColumn (x y : Z) : list (Z * Z) :=
  [ (x, y - 1); (x, y); (x, y + 1) ].

(** The frame callbacks for a list of timestamps, oldest first. *)
Definition frames (ts : list Q) : list Event := map Frame ts.

(** Timestamps that increase strictly, starting above [t0]. *)
Fixpoint increasingFrom (t0 : Q) (ts : list Q) : Prop :=
  match ts with
  | [] => True
  | t :: rest => (t0 < t)%Q /\ increasingFrom t rest
  end.

(** * Properties *)

(** Case analysis on every test left in the goal. *)
Ltac case_tests :=
  repeat match goal with
         | |- context [if ?b then _ else _] => destruct b
         end.

(** ** Rounded sums *)

Lemma roundDouble_exact (z : Z) : Z.abs z <= twoP53 -> roundDouble z = z.
Proof.
  intros H. unfold roundDouble. apply Z.leb_le in H. now rewrite H.
Qed.

Lemma twoP53_pow : twoP53 = 2 ^ 53.
Proof. reflexivity. Qed.

Section Magnitude.

Variable a : Z.
Hypothesis Ha : twoP53 < a.

Let k := Z.log2 a.
Let u := 2 ^ (k - 52).

Lemma magnitude_log2 : 53 <= k /\ 2 ^ k <= a < 2 ^ (k + 1).
Proof.
  assert (Hpos : 0 < a) by (unfold twoP53 in Ha; lia).
  pose proof (Z.log2_spec a Hpos) as Hs. fold k in Hs.
  replace (Z.succ k) with (k + 1) in Hs by lia.
  split; [|exact Hs].
  assert (H : Z.log2 (2 ^ 53) <= Z.log2 a).
  { apply Z.log2_le_mono. rewrite <- twoP53_pow. lia. }
  rewrite Z.log2_pow2 in H by lia. exact H.
Qed.

Lemma magnitude_unit : 0 < u /\ 2 ^ k = 2 ^ 52 * u /\ 2 ^ (k + 1) = 2 ^ 53 * u.
Proof.
  destruct magnitude_log2 as [Hk _]. unfold u.
  split; [apply Z.pow_pos_nonneg; lia|]. split.
  - rewrite <- Z.pow_add_r by lia. f_equal. lia.
  - rewrite <- Z.pow_add_r by lia. f_equal. lia.
Qed.

Lemma magnitude_quotient : 2 ^ 52 <= a / u < 2 ^ 53.
Proof.
  destruct magnitude_log2 as [_ [Hlo Hhi]].
  destruct magnitude_unit as (Hu & E1 & E2).
  split.
  - apply Z.div_le_lower_bound; [assumption | lia].
  - apply Z.div_lt_upper_bound; [assumption | lia].
Qed.

Lemma roundMagnitude_bounds :
  2 ^ k <= roundMagnitude a <= 2 ^ (k + 1).
Proof.
  destruct magnitude_unit as (Hu & E1 & E2).
  destruct magnitude_quotient as [Hq1 Hq2].
  unfold roundMagnitude. fold k. fold u.
  destruct (_ || _); nia.
Qed.

End Magnitude.

Lemma roundMagnitude_mono (a b : Z) :
  twoP53 < a -> a <= b -> roundMagnitude a <= roundMagnitude b.
Proof.
  intros Ha Hab. assert (Hb : twoP53 < b) by lia.
  destruct (magnitude_log2 a Ha) as [Hka [Ha1 Ha2]].
  destruct (magnitude_log2 b Hb) as [Hkb [Hb1 Hb2]].
  assert (Hk : Z.log2 a <= Z.log2 b) by (apply Z.log2_le_mono; lia).
  destruct (Z.eq_dec (Z.log2 a) (Z.log2 b)) as [E | NE].
  - destruct (magnitude_unit a Ha) as (Hu & _).
    unfold roundMagnitude. rewrite <- E.
    set (u := 2 ^ (Z.log2 a - 52)) in *.
    pose proof (Z.div_mod a u ltac:(lia)) as Da.
    pose proof (Z.div_mod b u ltac:(lia)) as Db.
    pose proof (Z.mod_pos_bound a u Hu) as Ra.
    pose proof (Z.mod_pos_bound b u Hu) as Rb.
    assert (Hq : a / u <= b / u) by (apply Z.div_le_mono; lia).
    destruct (Z.eq_dec (a / u) (b / u)) as [Eq | Nq].
    + rewrite <- Eq in *.
      assert (Hr : a mod u <= b mod u) by lia.
      destruct (2 * (b mod u) <? u) eqn:B1.
      * apply Z.ltb_lt in B1.
        assert (A1 : (2 * (a mod u) <? u) = true) by (apply Z.ltb_lt; lia).
        rewrite A1. cbn. lia.
      * destruct ((2 * (b mod u) =? u) && Z.even (a / u)) eqn:B2.
        -- apply andb_true_iff in B2 as [B2 Ev]. apply Z.eqb_eq in B2.
           destruct (2 * (a mod u) <? u) eqn:A1; [cbn; lia|].
           apply Z.ltb_ge in A1.
           assert (A2 : (2 * (a mod u) =? u) = true) by (apply Z.eqb_eq; lia).
           rewrite A2, Ev. cbn. lia.
        -- cbn [orb]. destruct (_ || _); nia.
    + assert (a / u + 1 <= b / u) by lia.
      destruct (_ || _); destruct (_ || _); nia.
  - pose proof (roundMagnitude_bounds a Ha) as [_ Hua].
    pose proof (roundMagnitude_bounds b Hb) as [Hlb _].
    assert (2 ^ (Z.log2 a + 1) <= 2 ^ Z.log2 b).
    { apply Z.pow_le_mono_r; lia. }
    lia.
Qed.

Lemma roundMagnitude_large (a : Z) : twoP53 < a -> twoP53 <= roundMagnitude a.
Proof.
  intros Ha. destruct (magnitude_log2 a Ha) as [Hk _].
  pose proof (roundMagnitude_bounds a Ha) as [Hlo _].
  assert (2 ^ 53 <= 2 ^ Z.log2 a) by (apply Z.pow_le_mono_r; lia).
  rewrite twoP53_pow. lia.
Qed.

Lemma roundDouble_mono (x y : Z) : x <= y -> roundDouble x <= roundDouble y.
Proof.
  intros Hxy. unfold roundDouble.
  destruct (Z.abs x <=? twoP53) eqn:Ex; destruct (Z.abs y <=? twoP53) eqn:Ey;
    try apply Z.leb_le in Ex; try apply Z.leb_le in Ey;
    try apply Z.leb_gt in Ex; try apply Z.leb_gt in Ey.
  - exact Hxy.
  - assert (Hy : twoP53 < y) by lia.
    pose proof (roundMagnitude_large (Z.abs y) Ey).
    rewrite Z.sgn_pos by (unfold twoP53 in *; lia). lia.
  - assert (Hx : x < - twoP53) by lia.
    pose proof (roundMagnitude_large (Z.abs x) Ex).
    rewrite Z.sgn_neg by (unfold twoP53 in *; lia). lia.
  - destruct (Z.lt_ge_cases x 0) as [Nx | Px];
      destruct (Z.lt_ge_cases y 0) as [Ny | Py].
    + rewrite !Z.sgn_neg by lia.
      pose proof (roundMagnitude_mono (Z.abs y) (Z.abs x) Ey ltac:(lia)). lia.
    + pose proof (roundMagnitude_large (Z.abs x) Ex).
      pose proof (roundMagnitude_large (Z.abs y) Ey).
      rewrite Z.sgn_neg by lia.
      rewrite Z.sgn_pos by (unfold twoP53 in *; lia).
      unfold twoP53 in *. lia.
    + lia.
    + rewrite !Z.sgn_pos by (unfold twoP53 in *; lia).
      pose proof (roundMagnitude_mono (Z.abs x) (Z.abs y) Ex ltac:(lia)). lia.
Qed.

Lemma add_exact (x d : Z) :
  Z.abs (x + d) <= twoP53 -> add (Some x) (Some d) = Some (x + d).
Proof.
  intros H. unfold add. now rewrite roundDouble_exact.
Qed.

(** ** Keys *)

Lemma uint_digits_no_comma (d : Decimal.uint) :
  has_comma (NilEmpty.string_of_uint d) = false.
Proof.
  induction d; simpl; auto.
Qed.

Lemma toString_no_comma (x : Z) : has_comma (toString (Some x)) = false.
Proof.
  unfold toString, Z.to_int.
  destruct x as [|p|p]; simpl; try reflexivity;
    unfold NilZero.string_of_uint;
    pose proof (uint_digits_no_comma (Pos.to_uint p)) as H;
    destruct (Pos.to_uint p); simpl in *; auto.
Qed.

Lemma split_comma_plain (a : string) :
  has_comma a = false -> split_comma a = [a].
Proof.
  induction a as [|c a IH]; simpl; intros H; [reflexivity|].
  apply orb_false_iff in H as [Hc Ha].
  rewrite Hc, (IH Ha). reflexivity.
Qed.

Lemma split_comma_app (a b : string) :
  has_comma a = false ->
  split_comma (a ++ String comma b) = a :: split_comma b.
Proof.
  induction a as [|c a IH]; simpl; intros H.
  - reflexivity.
  - apply orb_false_iff in H as [Hc Ha].
    rewrite Hc, (IH Ha). reflexivity.
Qed.

Lemma Number_toString (x : Z) : Number (toString (Some x)) = Some x.
Proof.
  unfold Number, toString.
  assert (Hparse : NilZero.int_of_string (NilZero.string_of_int (Z.to_int x))
                   = Some (Z.to_int x)).
  { apply NilZero.isi; destruct x as [|p|p]; simpl; try discriminate;
      intros [= E]; exact (Unsigned.to_uint_nonnil p E). }
  destruct (NilZero.string_of_int (Z.to_int x)) eqn:E.
  - simpl in Hparse. discriminate.
  - rewrite Hparse. simpl. f_equal. apply DecimalZ.of_to.
Qed.

Lemma parseKey_cellKey (x y : Z) :
  parseKey (cellKey (Some x) (Some y)) = [Some x; Some y].
Proof.
  unfold parseKey, cellKey.
  rewrite split_comma_app by apply toString_no_comma.
  rewrite split_comma_plain by apply toString_no_comma.
  cbn [map]. now rewrite !Number_toString.
Qed.

Lemma cellKey_inj (x1 y1 x2 y2 : Z) :
  cellKey (Some x1) (Some y1) = cellKey (Some x2) (Some y2) ->
  x1 = x2 /\ y1 = y2.
Proof.
  intros E. apply (f_equal parseKey) in E.
  rewrite !parseKey_cellKey in E. now inversion E.
Qed.

Lemma keyOf_inj (c d : Z * Z) : keyOf c = keyOf d -> c = d.
Proof.
  destruct c, d. unfold keyOf. simpl. intros E.
  apply cellKey_inj in E as [-> ->]. reflexivity.
Qed.

(** C10: parsing the key of an integer cell gives back its two
    coordinates, and two integer cells have the same key only when both
    coordinates agree. *)
Theorem cellKey_roundtrip_injective :
  (forall x y : Z, parseKey (cellKey (Some x) (Some y)) = [Some x; Some y])
  /\ (forall x1 y1 x2 y2 : Z,
        cellKey (Some x1) (Some y1) = cellKey (Some x2) (Some y2) <->
        x1 = x2 /\ y1 = y2).
Proof.
  split; [exact parseKey_cellKey|].
  intros x1 y1 x2 y2. split; [apply cellKey_inj|].
  now intros [-> ->].
Qed.

Lemma cellKey_roundtrip_injective_witness :
  parseKey (cellKey (Some 12) (Some (-3))) = [Some 12; Some (-3)]
  /\ (cellKey (Some 12) (Some (-3)) = cellKey (Some 12) (Some (-3)) ->
      12 = 12 /\ -3 = -3).
Proof.
  split.
  - exact (proj1 cellKey_roundtrip_injective 12 (-3)).
  - exact (proj1 (proj2 cellKey_roundtrip_injective 12 (-3) 12 (-3))).
Defined.

(** ** The set operations *)

Lemma has_In (s : JSSet.t) (k : string) : JSSet.has s k = true <-> In k s.
Proof.
  unfold JSSet.has. rewrite existsb_exists. split.
  - intros (k' & Hin & E). apply String.eqb_eq in E. now subst.
  - intros Hin. exists k. split; [assumption | apply String.eqb_refl].
Qed.

Lemma has_false_In (s : JSSet.t) (k : string) :
  JSSet.has s k = false <-> ~ In k s.
Proof.
  rewrite <- has_In. destruct (JSSet.has s k); split; congruence.
Qed.

Lemma In_add (s : JSSet.t) (k k' : string) :
  In k (JSSet.add s k') <-> In k s \/ k = k'.
Proof.
  unfold JSSet.add. destruct (JSSet.has s k') eqn:E.
  - apply has_In in E. split; [now left | intros [H | ->]; assumption].
  - rewrite in_app_iff. simpl. intuition.
Qed.

Lemma In_delete (s : JSSet.t) (k k' : string) :
  In k (JSSet.delete s k') <-> In k s /\ k <> k'.
Proof.
  unfold JSSet.delete. rewrite filter_In, negb_true_iff.
  split; intros [H1 H2]; split; trivial.
  - intros ->. now rewrite String.eqb_refl in H2.
  - apply String.eqb_neq. congruence.
Qed.

Lemma NoDup_add (s : JSSet.t) (k : string) :
  NoDup s -> NoDup (JSSet.add s k).
Proof.
  intros Hs. unfold JSSet.add. destruct (JSSet.has s k) eqn:E; [assumption|].
  apply has_false_In in E.
  apply NoDup_app; [assumption | repeat constructor; simpl; tauto |].
  intros x Hx [<- | []]. contradiction.
Qed.

Lemma In_fold_add {A : Type} (f : A -> string) (l : list A) (s : JSSet.t)
  (k : string) :
  In k (fold_left (fun acc a => JSSet.add acc (f a)) l s) <->
  In k s \/ exists a, In a l /\ k = f a.
Proof.
  revert s. induction l as [|a l IH]; intros s; simpl.
  - split; [now left | intros [H | (a & [] & _)]; assumption].
  - rewrite IH, In_add. split.
    + intros [[H | ->] | (b & Hb & ->)]; eauto.
    + intros [H | (b & [<- | Hb] & ->)]; eauto.
Qed.

Lemma In_setOfCells (live : list (Z * Z)) (k : string) :
  In k (setOfCells live) <-> exists c, In c live /\ k = keyOf c.
Proof.
  unfold setOfCells. rewrite In_fold_add. simpl. tauto.
Qed.

Lemma cell_eqb_eq (a b : Z * Z) : cell_eqb a b = true <-> a = b.
Proof.
  destruct a, b. unfold cell_eqb. simpl.
  rewrite andb_true_iff, !Z.eqb_eq. split; [intros [-> ->] | intros [= -> ->]]; auto.
Qed.

Lemma isAlive_In (live : list (Z * Z)) (c : Z * Z) :
  isAlive live c = true <-> In c live.
Proof.
  unfold isAlive. rewrite existsb_exists. split.
  - intros (d & Hd & E). apply cell_eqb_eq in E. now subst.
  - intros H. exists c. split; [assumption | now apply cell_eqb_eq].
Qed.

Lemma has_setOfCells (live : list (Z * Z)) (c : Z * Z) :
  JSSet.has (setOfCells live) (keyOf c) = isAlive live c.
Proof.
  apply eq_true_iff_eq. rewrite has_In, In_setOfCells, isAlive_In. split.
  - intros (d & Hd & E). apply keyOf_inj in E. now subst.
  - intros H. now exists c.
Qed.

(** ** The generation engine *)

Lemma In_candidatesOf (aliveCells : JSSet.t) (k : string) :
  In k (candidatesOf aliveCells) <->
  exists key, In key aliveCells /\
    (k = key \/
     exists d, In d offsets /\
       k = cellKey (add (fst (destructure2 (parseKey key))) (Some (fst d)))
                   (add (snd (destructure2 (parseKey key))) (Some (snd d)))).
Proof.
  unfold candidatesOf, JSSet.forEach.
  enough (G : forall l acc,
    In k (fold_left
      (fun candidates key =>
         let '(x, y) := destructure2 (parseKey key) in
         fold_left
           (fun cands '(dx, dy) =>
              JSSet.add cands (cellKey (add x (Some dx)) (add y (Some dy))))
           offsets (JSSet.add candidates key)) l acc) <->
    In k acc \/
    exists key, In key l /\
      (k = key \/
       exists d, In d offsets /\
         k = cellKey (add (fst (destructure2 (parseKey key))) (Some (fst d)))
                     (add (snd (destructure2 (parseKey key))) (Some (snd d))))).
  { rewrite G. simpl. tauto. }
  induction l as [|key l IH]; intros acc.
  - simpl. split; [now left | intros [H | (key & [] & _)]; assumption].
  - cbn [fold_left]. rewrite IH. clear IH.
    destruct (destructure2 (parseKey key)) as [x y] eqn:Exy. cbn [fst snd].
    assert (Step : forall cands,
      In k (fold_left
        (fun cands '(dx, dy) =>
           JSSet.add cands (cellKey (add x (Some dx)) (add y (Some dy))))
        offsets cands) <->
      In k cands \/
      exists d, In d offsets /\
        k = cellKey (add x (Some (fst d))) (add y (Some (snd d)))).
    { intros cands.
      rewrite <- (In_fold_add
        (fun d => cellKey (add x (Some (fst d))) (add y (Some (snd d))))).
      match goal with
      | |- In k (fold_left ?f _ _) <-> In k (fold_left ?g _ _) =>
          assert (E : forall l c, fold_left f l c = fold_left g l c)
      end.
      { induction l0 as [|[dx dy] l0 IH0]; intros c; simpl; [reflexivity|].
        apply IH0. }
      now rewrite E. }
    rewrite Step, In_add. split.
    + intros [[[H | ->] | Hd] | (key' & Hk & H)].
      * now left.
      * right. exists key. rewrite Exy. simpl. auto.
      * right. exists key. rewrite Exy. simpl. auto.
      * right. exists key'. simpl. auto.
    + intros [H | (key' & [<- | Hk] & H)].
      * auto.
      * rewrite Exy in H. simpl in H. destruct H as [-> | Hd]; auto.
      * right. eauto.
Qed.

Lemma In_nextGen (aliveCells : JSSet.t) (k : string) :
  In k (nextGen aliveCells) <->
  In k (candidatesOf aliveCells) /\ survives aliveCells k = true.
Proof.
  unfold nextGen, JSSet.forEach.
  enough (G : forall l acc,
    In k (fold_left
      (fun newAlive key =>
         let '(x, y) := destructure2 (parseKey key) in
         let alive := JSSet.has aliveCells key in
         let neighbors := getNeighbors aliveCells x y in
         if alive && ((neighbors =? 2) || (neighbors =? 3)) then
           JSSet.add newAlive key
         else if negb alive && (neighbors =? 3) then
           JSSet.add newAlive key
         else newAlive) l acc) <->
    In k acc \/ (In k l /\ survives aliveCells k = true)).
  { rewrite G. simpl. tauto. }
  induction l as [|key l IH]; intros acc.
  - simpl. tauto.
  - cbn [fold_left]. rewrite IH. clear IH.
    assert (Body :
      In k (let '(x, y) := destructure2 (parseKey key) in
            let alive := JSSet.has aliveCells key in
            let neighbors := getNeighbors aliveCells x y in
            if alive && ((neighbors =? 2) || (neighbors =? 3)) then
              JSSet.add acc key
            else if negb alive && (neighbors =? 3) then
              JSSet.add acc key
            else acc) <->
      In k acc \/ (k = key /\ survives aliveCells key = true)).
    { unfold survives.
      destruct (destructure2 (parseKey key)) as [x y]. cbv zeta.
      destruct (JSSet.has aliveCells key
                && ((getNeighbors aliveCells x y =? 2)
                    || (getNeighbors aliveCells x y =? 3)));
        [rewrite In_add; simpl; tauto|].
      destruct (negb (JSSet.has aliveCells key)
                && (getNeighbors aliveCells x y =? 3));
        [rewrite In_add; simpl; tauto|].
      simpl. intuition discriminate. }
    rewrite Body. simpl. split.
    + intros [[H | [-> H]] | [H1 H2]]; auto.
    + intros [H | [[<- | H1] H2]]; auto.
Qed.

Lemma destructure2_keyOf (c : Z * Z) :
  destructure2 (parseKey (keyOf c)) = (Some (fst c), Some (snd c)).
Proof.
  unfold keyOf. now rewrite parseKey_cellKey.
Qed.

Lemma has_neighbor_key (live : list (Z * Z)) (x y dx dy : Z) :
  Z.abs (x + dx) <= twoP53 -> Z.abs (y + dy) <= twoP53 ->
  JSSet.has (setOfCells live)
    (cellKey (add (Some x) (Some dx)) (add (Some y) (Some dy)))
  = isAlive live (x + dx, y + dy).
Proof.
  intros Hx Hy. rewrite !add_exact by assumption.
  exact (has_setOfCells live (x + dx, y + dy)).
Qed.

Lemma getNeighbors_count (live : list (Z * Z)) (x y : Z) :
  Z.abs x <= twoP53 - 1 -> Z.abs y <= twoP53 - 1 ->
  getNeighbors (setOfCells live) (Some x) (Some y)
  = countLiveNeighbors live (x, y).
Proof.
  intros Hx Hy.
  unfold getNeighbors, countLiveNeighbors, mooreNeighborhood.
  cbn [offsets flat_map app Z.eqb andb fold_left].
  rewrite !has_neighbor_key by lia. rewrite !Z.add_0_r.
  change (x + -1) with (x - 1). change (y + -1) with (y - 1).
  cbn [filter].
  destruct (isAlive live (x - 1, y - 1)), (isAlive live (x, y - 1)),
    (isAlive live (x + 1, y - 1)), (isAlive live (x - 1, y)),
    (isAlive live (x + 1, y)), (isAlive live (x - 1, y + 1)),
    (isAlive live (x, y + 1)), (isAlive live (x + 1, y + 1));
    reflexivity.
Qed.

Lemma survives_keyOf (live : list (Z * Z)) (c : Z * Z) :
  inRange (twoP53 - 1) c ->
  survives (setOfCells live) (keyOf c)
  = lifeRule (isAlive live c) (countLiveNeighbors live c).
Proof.
  intros [Hx Hy].
  unfold survives. rewrite destructure2_keyOf, has_setOfCells. cbv zeta.
  destruct c as [x y]. cbn [fst snd] in *.
  rewrite getNeighbors_count by assumption.
  unfold lifeRule. destruct (isAlive live (x, y)); simpl.
  - now rewrite orb_false_r.
  - reflexivity.
Qed.

Lemma In_offsets_neighborhood (c d : Z * Z) :
  In c (mooreNeighborhood d) <->
  exists o, In o offsets /\ c = (fst d + fst o, snd d + snd o).
Proof.
  destruct d as [x y]. unfold mooreNeighborhood.
  cbn [offsets flat_map app Z.eqb andb fst snd]. split.
  - intros H; simpl in H.
    repeat (destruct H as [<- | H];
            [ first
                [ exists (-1, -1); simpl; split; [tauto | reflexivity]
                | exists (0, -1); simpl; split; [tauto | f_equal; lia]
                | exists (1, -1); simpl; split; [tauto | reflexivity]
                | exists (-1, 0); simpl; split; [tauto | f_equal; lia]
                | exists (1, 0); simpl; split; [tauto | f_equal; lia]
                | exists (-1, 1); simpl; split; [tauto | reflexivity]
                | exists (0, 1); simpl; split; [tauto | f_equal; lia]
                | exists (1, 1); simpl; split; [tauto | reflexivity] ]
            | ]).
    destruct H.
  - intros (o & Ho & ->). simpl in Ho.
    repeat (destruct Ho as [<- | Ho];
            [ cbn [fst snd]; rewrite ?Z.add_0_r; simpl; tauto | ]).
    destruct Ho.
Qed.

Lemma offsets_small (o : Z * Z) :
  In o offsets -> -1 <= fst o <= 1 /\ -1 <= snd o <= 1.
Proof.
  cbn. intros H.
  repeat (destruct H as [<- | H]; [cbn; lia|]). destruct H.
Qed.

Lemma neighbor_key_exact (d o : Z * Z) :
  inRange (twoP53 - 1) d -> In o offsets ->
  cellKey (add (Some (fst d)) (Some (fst o))) (add (Some (snd d)) (Some (snd o)))
  = keyOf (fst d + fst o, snd d + snd o).
Proof.
  intros [Hx Hy] Ho. apply offsets_small in Ho.
  rewrite !add_exact by lia. reflexivity.
Qed.

Lemma exactBound_inRange (c : Z * Z) :
  inRange exactBound c -> inRange (twoP53 - 1) c.
Proof.
  unfold inRange, exactBound. lia.
Qed.

Lemma In_candidates_cells (live : list (Z * Z)) (k : string) :
  (forall c, In c live -> inRange exactBound c) ->
  (In k (candidatesOf (setOfCells live)) <->
   exists c, k = keyOf c /\ isCandidate live c = true).
Proof.
  intros Hlive. rewrite In_candidatesOf. unfold isCandidate. split.
  - intros (key & Hkey & H). apply In_setOfCells in Hkey as (d & Hd & ->).
    rewrite destructure2_keyOf in H. cbn [fst snd] in H.
    destruct H as [-> | (o & Ho & ->)].
    + exists d. split; [reflexivity|].
      apply orb_true_iff. left. now apply isAlive_In.
    + exists (fst d + fst o, snd d + snd o).
      split; [apply neighbor_key_exact;
              [apply exactBound_inRange, Hlive|]; assumption|].
      apply orb_true_iff. right. apply existsb_exists. exists d.
      split; [assumption|]. apply existsb_exists.
      exists (fst d + fst o, snd d + snd o).
      split; [| now apply cell_eqb_eq].
      apply In_offsets_neighborhood. now exists o.
  - intros (c & -> & H). apply orb_true_iff in H as [H | H].
    + apply isAlive_In in H. exists (keyOf c). split; [|now left].
      apply In_setOfCells. now exists c.
    + apply existsb_exists in H as (d & Hd & H).
      apply existsb_exists in H as (c' & Hc' & E).
      apply cell_eqb_eq in E. subst c'.
      apply In_offsets_neighborhood in Hc' as (o & Ho & ->).
      exists (keyOf d). split; [apply In_setOfCells; now exists d|].
      right. exists o. split; [assumption|].
      rewrite destructure2_keyOf. cbn [fst snd]. symmetry.
      apply neighbor_key_exact;
        [apply exactBound_inRange, Hlive|]; assumption.
Qed.

Lemma isCandidate_inRange (live : list (Z * Z)) (c : Z * Z) :
  (forall c, In c live -> inRange exactBound c) ->
  isCandidate live c = true -> inRange (twoP53 - 1) c.
Proof.
  intros Hlive H. unfold isCandidate in H.
  apply orb_true_iff in H as [H | H].
  - apply isAlive_In in H. apply exactBound_inRange, Hlive, H.
  - apply existsb_exists in H as (d & Hd & H).
    apply existsb_exists in H as (c' & Hc' & E).
    apply cell_eqb_eq in E. subst c'.
    apply In_offsets_neighborhood in Hc' as (o & Ho & ->).
    apply offsets_small in Ho. specialize (Hlive d Hd).
    unfold inRange, exactBound in *. cbn [fst snd]. lia.
Qed.

(** C1, as the code has it: for a live set whose coordinates have magnitude
    at most 2^53 - 2, the live set after [nextGen] holds exactly the keys of
    the candidate cells (live cells and their Moore neighbours) that the Life
    rule makes live, liveness and neighbour counts being those of the live
    set before the call; it is again a set (no key twice). *)
Theorem nextGen_life_rule :
  forall (live : list (Z * Z)),
    (forall c, In c live -> inRange exactBound c) ->
    (forall k : string,
        In k (nextGen (setOfCells live)) <->
        exists c, k = keyOf c /\ isCandidate live c = true
                  /\ lifeRule (isAlive live c) (countLiveNeighbors live c) = true)
    /\ (forall c : Z * Z,
          JSSet.has (nextGen (setOfCells live)) (keyOf c) = liveNext live c)
    /\ NoDup (nextGen (setOfCells live)).
Proof.
  intros live Hlive.
  assert (Hk : forall k : string,
    In k (nextGen (setOfCells live)) <->
    exists c, k = keyOf c /\ isCandidate live c = true
              /\ lifeRule (isAlive live c) (countLiveNeighbors live c) = true).
  { intros k. rewrite In_nextGen, (In_candidates_cells live k Hlive). split.
    - intros [(c & -> & Hc) Hs].
      rewrite survives_keyOf in Hs by (now apply isCandidate_inRange with live).
      eauto.
    - intros (c & -> & Hc & Hr).
      rewrite survives_keyOf by (now apply isCandidate_inRange with live).
      eauto. }
  split; [exact Hk|]. split.
  - intros c. apply eq_true_iff_eq. rewrite has_In, Hk.
    unfold liveNext. rewrite andb_true_iff. split.
    + intros (d & E & H). apply keyOf_inj in E. now subst.
    + intros H. now exists c.
  - unfold nextGen, JSSet.forEach.
    enough (G : forall l acc, NoDup acc ->
      NoDup (fold_left
        (fun newAlive key =>
           let '(x, y) := destructure2 (parseKey key) in
           let alive := JSSet.has (setOfCells live) key in
           let neighbors := getNeighbors (setOfCells live) x y in
           if alive && ((neighbors =? 2) || (neighbors =? 3)) then
             JSSet.add newAlive key
           else if negb alive && (neighbors =? 3) then
             JSSet.add newAlive key
           else newAlive) l acc)).
    { apply G. constructor. }
    induction l as [|key l IH]; intros acc Hacc; [assumption|].
    cbn [fold_left]. apply IH.
    destruct (destructure2 (parseKey key)) as [x y]. cbv zeta.
    case_tests; auto using NoDup_add.
Qed.

Lemma nextGen_life_rule_witness :
  (forall k : string,
      In k (nextGen (setOfCells [(0, 0); (1, 0); (2, 0)])) <->
      exists c, k = keyOf c
                /\ isCandidate [(0, 0); (1, 0); (2, 0)] c = true
                /\ lifeRule (isAlive [(0, 0); (1, 0); (2, 0)] c)
                     (countLiveNeighbors [(0, 0); (1, 0); (2, 0)] c) = true)
  /\ (forall c : Z * Z,
        JSSet.has (nextGen (setOfCells [(0, 0); (1, 0); (2, 0)])) (keyOf c)
        = liveNext [(0, 0); (1, 0); (2, 0)] c)
  /\ NoDup (nextGen (setOfCells [(0, 0); (1, 0); (2, 0)])).
Proof.
  apply (nextGen_life_rule [(0, 0); (1, 0); (2, 0)]).
  intros c Hc. cbn in Hc.
  destruct Hc as [<- | [<- | [<- | []]]]; split; cbn; discriminate.
Defined.

(** C1, as stated for every live set, fails from 2^53 on, where [x + 1] is
    [x] again: in the column of three cells at x = 2^53 the centre cell has
    two live neighbours and survives under the Life rule, but [getNeighbors]
    counts five (the cells above and below, and then the cell itself and
    the same two again at [x + 1]), so [nextGen] drops it. *)
Lemma nextGen_column_at_2p53 :
  liveNext [(twoP53, -1); (twoP53, 0); (twoP53, 1)] (twoP53, 0) = true
  /\ getNeighbors (setOfCells [(twoP53, -1); (twoP53, 0); (twoP53, 1)])
       (Some twoP53) (Some 0) = 5
  /\ JSSet.has (nextGen (setOfCells [(twoP53, -1); (twoP53, 0); (twoP53, 1)]))
       (keyOf (twoP53, 0)) = false.
Proof.
  repeat split; vm_compute; reflexivity.
Qed.

(** C3: the empty live set is a fixed point of [nextGen]. *)
Theorem nextGen_empty : nextGen JSSet.empty = JSSet.empty.
Proof.
  reflexivity.
Qed.

Lemma glider_after_four :
  nextGen (nextGen (nextGen (nextGen (initGlider 0 0 JSSet.empty))))
  = map keyOf [(2, 1); (1, 3); (2, 3); (3, 2); (3, 3)].
Proof.
  vm_compute. reflexivity.
Qed.

(** C2: four generations after [initGlider(0, 0)] on the empty grid the live
    set consists of exactly the five cells (2,1), (3,2), (1,3), (2,3),
    (3,3), which is the glider seeded at (1, 1). *)
Theorem glider_translation :
  Permutation
    (nextGen (nextGen (nextGen (nextGen (initGlider 0 0 JSSet.empty)))))
    (map keyOf [(2, 1); (3, 2); (1, 3); (2, 3); (3, 3)])
  /\ Permutation
       (nextGen (nextGen (nextGen (nextGen (initGlider 0 0 JSSet.empty)))))
       (initGlider 1 1 JSSet.empty)
  /\ initGlider 0 0 JSSet.empty
     = map keyOf [(1, 0); (2, 1); (0, 2); (1, 2); (2, 2)].
Proof.
  rewrite glider_after_four.
  assert (P : Permutation
                (map keyOf [(2, 1); (1, 3); (2, 3); (3, 2); (3, 3)])
                (map keyOf [(2, 1); (3, 2); (1, 3); (2, 3); (3, 3)])).
  { cbn [map]. apply perm_skip. symmetry.
    apply (Permutation_cons_app [keyOf (1, 3); keyOf (2, 3)] [keyOf (3, 3)]).
    reflexivity. }
  split; [exact P|]. split; [|vm_compute; reflexivity].
  replace (initGlider 1 1 JSSet.empty)
    with (map keyOf [(2, 1); (3, 2); (1, 3); (2, 3); (3, 3)])
    by (vm_compute; reflexivity).
  exact P.
Qed.

(** ** Camera and zoom *)

#[local] Open Scope Q_scope.

(** C4: after one wheel step the camera offset is the world coordinate that
    was under the cursor before the step, minus the cursor offset divided by
    the zoom after clamping; that zoom is the old one times the step factor,
    clamped to [1, 50]. *)
Theorem onWheel_zoom_to_cursor :
  forall (rect : DOMRect) (e : MouseEvent) (s : State),
    let mouseX := clientX e - left rect in
    let mouseY := clientY e - top rect in
    let wxBeforeZoom := cameraX s + mouseX / zoom s in
    let wyBeforeZoom := cameraY s + mouseY / zoom s in
    let s' := onWheel rect e s in
    cameraX s' = wxBeforeZoom - mouseX / zoom s'
    /\ cameraY s' = wyBeforeZoom - mouseY / zoom s'
    /\ zoom s'
       = Qmin 50 (Qmax 1 (zoom s * (if Qltb (deltaY e) 0 then 11 # 10 else 9 # 10))).
Proof.
  intros. repeat split.
Qed.

(** In exact arithmetic the world coordinate under the cursor is the same
    before and after the step. *)
Lemma onWheel_anchor_fixed (rect : DOMRect) (e : MouseEvent) (s : State) :
  cameraX (onWheel rect e s)
    + (clientX e - left rect) / zoom (onWheel rect e s)
  == cameraX s + (clientX e - left rect) / zoom s
  /\ cameraY (onWheel rect e s)
       + (clientY e - top rect) / zoom (onWheel rect e s)
     == cameraY s + (clientY e - top rect) / zoom s.
Proof.
  split; cbn -[Qmin Qmax Qplus Qminus Qdiv Qmult]; ring.
Qed.

Lemma clamp_in_range (z : Q) : zoomInRange (Qmin 50 (Qmax 1 z)).
Proof.
  split.
  - apply Q.min_glb; [discriminate | apply Q.le_max_l].
  - apply Q.le_min_l.
Qed.

Lemma zoom_handle (ev : Event) (s : State) :
  match ev with
  | Wheel _ _ => zoomInRange (zoom (handle ev s))
  | _ => zoom (handle ev s) = zoom s
  end.
Proof.
  destruct ev; simpl; try reflexivity.
  - unfold onMouseDown. now destruct (negb (button e =? 0)%Z).
  - unfold onMouseUp. now destruct (negb (button e =? 0)%Z).
  - unfold onMouseMove. now destruct (isDragging s).
  - unfold onClick. destruct (isDragging s || negb (paused s));
      [reflexivity|].
    destruct (paintLoop _ _ _ _) as [[cells n]|]; reflexivity.
  - apply clamp_in_range.
  - unfold loop. case_tests; reflexivity.
Qed.

Lemma zoom_run (evs : list Event) (s : State) :
  zoomInRange (zoom s) -> zoomInRange (zoom (run evs s)).
Proof.
  unfold run. revert s. induction evs as [|ev evs IH]; intros s Hs.
  - exact Hs.
  - cbn [fold_left]. apply IH.
    pose proof (zoom_handle ev s) as H.
    destruct ev; try (rewrite H; exact Hs); exact H.
Qed.

(** C7: the zoom starts within [1, 50]; the wheel handler leaves it within
    [1, 50] whatever it was; every other handler and the frame loop leave
    it as it is; so it is within [1, 50], and positive, after every sequence
    of events. *)
Theorem zoom_always_in_range :
  (forall w h : Q, 1 <= zoom (startup w h) <= 50)
  /\ (forall (ev : Event) (s : State),
        match ev with
        | Wheel _ _ => 1 <= zoom (handle ev s) <= 50
        | _ => zoom (handle ev s) = zoom s
        end)
  /\ (forall (w h : Q) (evs : list Event),
        1 <= zoom (run evs (startup w h)) <= 50
        /\ 0 < zoom (run evs (startup w h))).
Proof.
  assert (H0 : forall w h : Q, zoomInRange (zoom (startup w h))).
  { intros w h. split; discriminate. }
  split; [exact H0|]. split; [exact zoom_handle|].
  intros w h evs.
  pose proof (zoom_run evs (startup w h) (H0 w h)) as [Hlo Hhi].
  repeat split; trivial.
  apply Qlt_le_trans with 1; [reflexivity | assumption].
Qed.

(** ** Paint tool *)

(** C9: a click while the simulation runs or while a drag is in progress
    leaves every global as it was. *)
Theorem onClick_disabled :
  forall (rect : DOMRect) (random : nat -> Q) (e : MouseEvent) (s : State),
    paused s = false \/ isDragging s = true ->
    onClick rect random e s = s.
Proof.
  intros rect random e s H. unfold onClick.
  destruct H as [H | H]; rewrite H; [|reflexivity].
  now rewrite orb_true_r.
Qed.

Lemma onClick_disabled_witness :
  onClick (mkDOMRect 0 0) (fun _ => 1 # 2) (mkMouseEvent 0 100 100 0)
    (startup 800 600)
  = startup 800 600.
Proof.
  apply (onClick_disabled (mkDOMRect 0 0) (fun _ => 1 # 2)
           (mkMouseEvent 0 100 100 0) (startup 800 600)).
  left. reflexivity.
Defined.

(** ** Simulation clock *)

Lemma Qltb_lt (a b : Q) : Qltb a b = true <-> a < b.
Proof.
  unfold Qltb. rewrite negb_true_iff. split.
  - intros H. apply Qnot_le_lt. intros Hle.
    apply Qle_bool_iff in Hle. congruence.
  - intros H. destruct (Qle_bool b a) eqn:E; [|reflexivity].
    apply Qle_bool_iff in E. exfalso. exact (Qlt_not_le _ _ H E).
Qed.

(** What one call of [loop] does to the clock and the live set: [due] is
    the test of its second [if], read after the first has replaced a zero
    [lastFrame] by the timestamp. *)
Lemma loop_clock (t : Q) (s : State) :
  let L := if Qeq_bool (lastFrame s) 0 then t else lastFrame s in
  let due := negb (paused s) && Qltb (delay s) (t - L) in
  aliveCells (loop t s)
    = (if due then nextGen (aliveCells s) else aliveCells s)
  /\ generation (loop t s)
     = (if due then S (generation s) else generation s)
  /\ lastFrame (loop t s) = (if due then t else L).
Proof.
  unfold loop.
  destruct (Qltb (lastFpsUpdate s + 1000) t); cbn;
    destruct (Qeq_bool (lastFrame s) 0); cbn;
    destruct (paused s); cbn; auto;
    match goal with
    | |- context [Qltb ?a ?b] => destruct (Qltb a b)
    end; cbn; auto.
Qed.

(** C6, as the code has it: a paused tick never advances; a running tick
    computes exactly one generation when [t - L > delay] and none
    otherwise, where [L] is [lastFrame], or [t] itself on the tick that
    finds [lastFrame] still 0; an advancing tick sets [lastFrame] to [t];
    no tick computes more than one generation; with delay 0 every running
    tick later than a nonzero [lastFrame] advances. *)
Theorem loop_tick :
  forall (t : Q) (s : State),
    let L := if Qeq_bool (lastFrame s) 0 then t else lastFrame s in
    (paused s = true ->
       aliveCells (loop t s) = aliveCells s
       /\ generation (loop t s) = generation s)
    /\ (paused s = false -> delay s < t - L ->
          aliveCells (loop t s) = nextGen (aliveCells s)
          /\ generation (loop t s) = S (generation s)
          /\ lastFrame (loop t s) = t)
    /\ (paused s = false -> ~ delay s < t - L ->
          aliveCells (loop t s) = aliveCells s
          /\ generation (loop t s) = generation s
          /\ lastFrame (loop t s) = L)
    /\ (generation (loop t s) <= S (generation s))%nat
    /\ (paused s = false -> delay s == 0 ->
        ~ lastFrame s == 0 -> lastFrame s < t ->
          aliveCells (loop t s) = nextGen (aliveCells s)
          /\ generation (loop t s) = S (generation s)
          /\ lastFrame (loop t s) = t).
Proof.
  intros t s L. pose proof (loop_clock t s) as H. cbv zeta in H.
  fold L in H.
  assert (Running : paused s = false -> delay s < t - L ->
            aliveCells (loop t s) = nextGen (aliveCells s)
            /\ generation (loop t s) = S (generation s)
            /\ lastFrame (loop t s) = t).
  { intros Hp Hd. apply Qltb_lt in Hd. rewrite Hp, Hd in H. exact H. }
  split; [|split; [exact Running|split; [|split]]].
  - intros Hp. rewrite Hp in H. cbn in H. tauto.
  - intros Hp Hd.
    destruct (Qltb (delay s) (t - L)) eqn:E;
      [apply Qltb_lt in E; contradiction|].
    rewrite Hp in H. cbn in H. exact H.
  - destruct H as (_ & -> & _).
    destruct (negb (paused s) && Qltb (delay s) (t - L)); lia.
  - intros Hp Hd Hz Hlt. apply Running; [assumption|].
    unfold L. destruct (Qeq_bool (lastFrame s) 0) eqn:E.
    + apply Qeq_bool_iff in E. contradiction.
    + rewrite Hd. lra.
Qed.

Lemma loop_tick_witness :
  (aliveCells (loop 1000 (onPauseClick (startup 800 600)))
   = aliveCells (onPauseClick (startup 800 600))
   /\ generation (loop 1000 (onPauseClick (startup 800 600)))
      = generation (onPauseClick (startup 800 600)))
  /\ (aliveCells (loop 33 (loop 16 (startup 800 600)))
      = nextGen (aliveCells (loop 16 (startup 800 600)))
      /\ generation (loop 33 (loop 16 (startup 800 600)))
         = S (generation (loop 16 (startup 800 600)))
      /\ lastFrame (loop 33 (loop 16 (startup 800 600))) = 33).
Proof.
  split.
  - apply (proj1 (loop_tick 1000 (onPauseClick (startup 800 600)))).
    reflexivity.
  - apply (proj2 (proj2 (proj2 (proj2
             (loop_tick 33 (loop 16 (startup 800 600))))))).
    + reflexivity.
    + reflexivity.
    + discriminate.
    + reflexivity.
Defined.

(** C6, as stated, fails on the first frame: the script starts running with
    delay 0 and [lastFrame] 0, so at a first timestamp 16 the elapsed time
    16 - 0 exceeds the delay, yet that tick only records the timestamp and
    computes no generation. *)
Lemma loop_first_frame_no_advance :
  paused (startup 800 600) = false
  /\ delay (startup 800 600) == 0
  /\ delay (startup 800 600) < 16 - lastFrame (startup 800 600)
  /\ generation (loop 16 (startup 800 600)) = generation (startup 800 600)
  /\ aliveCells (loop 16 (startup 800 600)) = aliveCells (startup 800 600)
  /\ lastFrame (loop 16 (startup 800 600)) = 16
  /\ ~ (generation (loop 16 (startup 800 600))
        = S (generation (startup 800 600))
        <-> delay (startup 800 600) < 16 - lastFrame (startup 800 600)).
Proof.
  repeat split; try reflexivity.
  intros [_ H]. assert (E : (0 = 1)%nat) by (apply H; reflexivity).
  discriminate E.
Qed.

(** ** Coordinate round trip *)

(** In exact arithmetic, for any camera offset and positive zoom. *)
Lemma roundtrip_axis (camera zoom : Q) (sx : Z) :
  0 < zoom ->
  (0 <= sx - worldToScreen1 camera zoom
             (screenToWorld1 camera zoom (inject_Z sx)))%Z
  /\ inject_Z (sx - worldToScreen1 camera zoom
                      (screenToWorld1 camera zoom (inject_Z sx)))
     < zoom + 1.
Proof.
  intros Hz. unfold worldToScreen1, screenToWorld1.
  set (u := camera + inject_Z sx / zoom).
  set (w := Qfloor u).
  assert (Hu : (u - camera) * zoom == inject_Z sx).
  { unfold u. field. intros E. rewrite E in Hz. discriminate Hz. }
  assert (Hlo : inject_Z w <= u) by apply Qfloor_le.
  assert (Hhi : u < inject_Z (w + 1)) by apply Qlt_floor.
  rewrite inject_Z_plus in Hhi. change (inject_Z 1) with 1 in Hhi.
  clearbody w. clearbody u.
  set (v := (inject_Z w - camera) * zoom).
  assert (Hv1 : v <= inject_Z sx).
  { rewrite <- Hu. unfold v. apply Qmult_le_compat_r; lra. }
  assert (Hv2 : inject_Z sx - zoom < v).
  { rewrite <- Hu. unfold v.
    setoid_replace ((u - camera) * zoom - zoom)
      with ((u - camera - 1) * zoom) by ring.
    apply Qmult_lt_compat_r; [assumption | lra]. }
  clearbody v.
  split.
  - apply Qfloor_resp_le in Hv1. rewrite Qfloor_Z in Hv1. lia.
  - pose proof (Qlt_floor v) as Hf. rewrite inject_Z_plus in Hf.
    change (inject_Z 1) with 1 in Hf. unfold Zminus. rewrite inject_Z_plus, inject_Z_opp. lra.
Qed.







(** ** Painting *)


Lemma fold_left_over_map {A B C : Type} (f : A -> C -> A) (g : B -> C)
  (l : list B) (a : A) :
  fold_left (fun acc b => f acc (g b)) l a = fold_left f (map g l) a.
Proof.
  revert a. induction l as [|b l IH]; intros a; cbn; auto.
Qed.

Lemma fold_left_over_flat_map {A B C : Type} (f : A -> C -> A)
  (h : B -> list C) (l : list B) (a : A) :
  fold_left (fun acc b => fold_left f (h b) acc) l a
  = fold_left f (flat_map h l) a.
Proof.
  revert a. induction l as [|b l IH]; intros a; cbn; [reflexivity|].
  now rewrite fold_left_app, IH.
Qed.

Lemma fold_left_pointwise {A B : Type} (f g : A -> B -> A) (l : list B) :
  (forall a b, f a b = g a b) ->
  forall a, fold_left f l a = fold_left g l a.
Proof.
  intros E. induction l as [|b l IH]; intros a; cbn; [reflexivity|].
  now rewrite E, IH.
Qed.

Section PaintLoop.

(** The values of the successive calls to [Math.random()]. *)
Variable random : nat -> Q.

Lemma In_paintCell (cells : JSSet.t) (n : nat) (key k : string) :
  In k (fst (paintCell random (cells, n) key)) <->
  (k = key /\ negb (Qfloor (random n * 2) =? 0)%Z = true)
  \/ (k <> key /\ In k cells).
Proof.
  unfold paintCell. cbn [fst].
  destruct (negb (Qfloor (random n * 2) =? 0)%Z).
  - rewrite In_add. destruct (String.eqb_spec k key); intuition congruence.
  - destruct (JSSet.has cells key) eqn:E.
    + rewrite In_delete. intuition congruence.
    + apply has_false_In in E.
      destruct (String.eqb_spec k key); intuition congruence.
Qed.

Lemma paint_keys (ks : list string) :
  forall (cells : JSSet.t) (n : nat),
    NoDup ks ->
    snd (fold_left (paintCell random) ks (cells, n)) = (n + List.length ks)%nat
    /\ (forall i k, nth_error ks i = Some k ->
          (In k (fst (fold_left (paintCell random) ks (cells, n))) <->
           negb (Qfloor (random (n + i)%nat * 2) =? 0)%Z = true))
    /\ (forall k, ~ In k ks ->
          (In k (fst (fold_left (paintCell random) ks (cells, n))) <->
           In k cells)).
Proof.
  induction ks as [|key ks IH]; intros cells n Hnd.
  - cbn. split; [lia|]. split.
    + intros i k H. destruct i; discriminate H.
    + intros k _. tauto.
  - inversion Hnd as [|? ? Hnotin Hnd']. subst.
    cbn [fold_left].
    pose proof (In_paintCell cells n key) as Hstep.
    destruct (paintCell random (cells, n) key) as [cells1 n1] eqn:E.
    assert (En : n1 = S n).
    { unfold paintCell in E. now inversion E. }
    subst n1. cbn [fst] in Hstep.
    destruct (IH cells1 (S n) Hnd') as (Hcount & Hin & Hout).
    split; [cbn [List.length]; lia|]. split.
    + intros i k Hi. destruct i as [|i]; cbn in Hi.
      * inversion Hi. subst k. rewrite (Hout key Hnotin), Hstep.
        rewrite Nat.add_0_r. intuition congruence.
      * rewrite (Hin i k Hi). now rewrite Nat.add_succ_r.
    + intros k Hk. cbn in Hk.
      rewrite Hout by tauto. rewrite Hstep. intuition congruence.
Qed.

Lemma paintSquare_squareKeys (wx wy : Z) (cells : JSSet.t) :
  paintSquare random wx wy cells
  = fold_left (paintCell random) (squareKeys wx wy) (cells, 0%nat).
Proof.
  unfold paintSquare, squareKeys.
  rewrite <- fold_left_over_flat_map.
  apply fold_left_pointwise. intros acc x.
  apply fold_left_over_map.
Qed.

End PaintLoop.

#[local] Open Scope Z_scope.

Lemma length_Zrange (lo hi : Z) :
  List.length (Zrange lo hi) = Z.to_nat (hi - lo + 1).
Proof.
  unfold Zrange. now rewrite length_map, length_seq.
Qed.



Lemma NoDup_map_injective {A B : Type} (f : A -> B) (l : list A) :
  (forall a b, f a = f b -> a = b) -> NoDup l -> NoDup (map f l).
Proof.
  intros Hinj. induction 1 as [|a l Hnotin Hnd IH]; cbn; constructor.
  - rewrite in_map_iff. intros (b & E & Hb).
    apply Hinj in E. now subst.
  - exact IH.
Qed.

Lemma NoDup_Zrange (lo hi : Z) : NoDup (Zrange lo hi).
Proof.
  unfold Zrange. apply NoDup_map_injective; [|apply seq_NoDup].
  intros a b E. lia.
Qed.




Lemma NoDup_squareKeys (wx wy : Z) : NoDup (squareKeys wx wy).
Proof.
  unfold squareKeys.
  generalize (Zrange (wy - 50) (wy + 50)) (NoDup_Zrange (wy - 50) (wy + 50)).
  intros ys Hys.
  generalize (Zrange (wx - 50) (wx + 50)) (NoDup_Zrange (wx - 50) (wx + 50)).
  induction 1 as [|x xs Hnotin Hnd IH]; cbn [flat_map]; [constructor|].
  apply NoDup_app; [| exact IH |].
  - apply NoDup_map_injective; [|assumption].
    intros a b E. now apply cellKey_inj in E.
  - intros k Hk Hk'. apply in_map_iff in Hk as (y & <- & _).
    apply in_flat_map in Hk' as (x' & Hx' & Hk').
    apply in_map_iff in Hk' as (y' & E & _).
    apply cellKey_inj in E as [-> _]. contradiction.
Qed.

(** *** The loops of the script *)

Lemma Zrange_empty (lo hi : Z) : hi < lo -> Zrange lo hi = [].
Proof.
  intros H. unfold Zrange.
  replace (Z.to_nat (hi - lo + 1)) with 0%nat by lia. reflexivity.
Qed.

Lemma Zrange_cons (lo hi : Z) :
  lo <= hi -> Zrange lo hi = lo :: Zrange (lo + 1) hi.
Proof.
  intros H. unfold Zrange.
  replace (Z.to_nat (hi - lo + 1)) with (S (Z.to_nat (hi - (lo + 1) + 1)))
    by lia.
  cbn [seq map]. f_equal; [lia|].
  rewrite <- seq_shift, map_map. apply map_ext. intros i. lia.
Qed.

Lemma forLoop_past {A : Type} (fuel : nat) (x hi : Z)
  (body : A -> Z -> option A) (acc : A) :
  hi < x -> forLoop fuel x hi body acc = Some acc.
Proof.
  intros H. apply Z.leb_gt in H. destruct fuel; cbn; now rewrite H.
Qed.

Lemma forLoop_step {A : Type} (fuel : nat) (x hi : Z)
  (body : A -> Z -> option A) (acc : A) :
  x <= hi ->
  forLoop (S fuel) x hi body acc
  = match body acc x with
    | Some acc' => forLoop fuel (roundDouble (x + 1)) hi body acc'
    | None => None
    end.
Proof.
  intros H. apply Z.leb_le in H. cbn. now rewrite H.
Qed.

Lemma forLoop_pointwise {A : Type} (b1 b2 : A -> Z -> option A) :
  (forall a x, b1 a x = b2 a x) ->
  forall fuel x hi acc, forLoop fuel x hi b1 acc = forLoop fuel x hi b2 acc.
Proof.
  intros E. induction fuel as [|fuel IH]; intros x hi acc; cbn.
  - reflexivity.
  - destruct (x <=? hi); [|reflexivity]. rewrite E.
    destruct (b2 acc x); [apply IH | reflexivity].
Qed.

(** Within 2^53 the counter moves up by one each turn. *)
Lemma forLoop_exact {A : Type} (f : A -> Z -> A) (hi : Z) :
  hi + 1 <= twoP53 ->
  forall (fuel : nat) (lo : Z) (acc : A),
    - twoP53 <= lo -> (Z.to_nat (hi - lo + 1) <= fuel)%nat ->
    forLoop fuel lo hi (fun a x => Some (f a x)) acc
    = Some (fold_left f (Zrange lo hi) acc).
Proof.
  intros Hhi. induction fuel as [|fuel IH]; intros lo acc Hlo Hfuel.
  - assert (hi < lo) by lia.
    rewrite forLoop_past, Zrange_empty by assumption. reflexivity.
  - destruct (Z.lt_ge_cases hi lo) as [Hpast | Hin].
    + rewrite forLoop_past, Zrange_empty by assumption. reflexivity.
    + rewrite forLoop_step, Zrange_cons by lia.
      rewrite roundDouble_exact by lia. cbn [fold_left].
      apply IH; lia.
Qed.

(** A counter that does not move up never leaves the loop. *)
Lemma forLoop_diverges {A : Type} (body : A -> Z -> option A) (hi : Z) :
  forall (fuel : nat) (x : Z) (acc : A),
    x <= hi -> roundDouble (x + 1) <= x ->
    forLoop fuel x hi body acc = None.
Proof.
  induction fuel as [|fuel IH]; intros x acc Hx Hstuck.
  - cbn. apply Z.leb_le in Hx. now rewrite Hx.
  - rewrite forLoop_step by assumption.
    destruct (body acc x) as [acc'|]; [|reflexivity].
    apply IH; [lia|]. apply roundDouble_mono. lia.
Qed.

Lemma forLoop_more_fuel {A : Type} (body : A -> Z -> option A) (hi : Z) :
  forall (fuel fuel' : nat) (x : Z) (acc r : A),
    (fuel <= fuel')%nat ->
    forLoop fuel x hi body acc = Some r ->
    forLoop fuel' x hi body acc = Some r.
Proof.
  induction fuel as [|fuel IH]; intros fuel' x acc r Hle H.
  - cbn in H. destruct (x <=? hi) eqn:E; [discriminate|].
    apply Z.leb_gt in E. inversion H. subst. now apply forLoop_past.
  - destruct (Z.lt_ge_cases hi x) as [Hpast | Hin].
    + rewrite forLoop_past in H |- * by assumption. exact H.
    + destruct fuel' as [|fuel']; [lia|].
      rewrite forLoop_step in H |- * by assumption.
      destruct (body acc x) as [acc'|]; [|discriminate].
      apply (IH fuel'); [lia | assumption].
Qed.

(** The fuel [forRange] takes is enough: a loop that ends with some fuel
    ends with that much. *)
Lemma forLoop_fuel_enough {A : Type} (body : A -> Z -> option A) (hi : Z) :
  forall (fuel : nat) (x : Z) (acc r : A),
    forLoop fuel x hi body acc = Some r ->
    forRange x hi body acc = Some r.
Proof.
  unfold forRange.
  induction fuel as [|fuel IH]; intros x acc r H.
  - cbn in H. destruct (x <=? hi) eqn:E; [discriminate|].
    apply Z.leb_gt in E. inversion H. subst. now apply forLoop_past.
  - destruct (Z.lt_ge_cases hi x) as [Hpast | Hin].
    + rewrite forLoop_past in H |- * by assumption. exact H.
    + rewrite forLoop_step in H by assumption.
      replace (Z.to_nat (hi - x + 1)) with (S (Z.to_nat (hi - x))) by lia.
      rewrite forLoop_step by assumption.
      destruct (body acc x) as [acc'|]; [|discriminate].
      destruct (Z.lt_ge_cases x (roundDouble (x + 1))) as [Hup | Hstuck].
      * apply (forLoop_more_fuel body hi
                 (Z.to_nat (hi - roundDouble (x + 1) + 1))); [lia|].
        now apply IH.
      * rewrite (forLoop_diverges body hi fuel _ acc') in H;
          [discriminate | | ].
        -- lia.
        -- apply roundDouble_mono. lia.
Qed.

Lemma forLoop_invariant {A : Type} (P : A -> Prop)
  (body : A -> Z -> option A) (hi : Z) :
  (forall a x a', P a -> body a x = Some a' -> P a') ->
  forall (fuel : nat) (x : Z) (acc r : A),
    P acc -> forLoop fuel x hi body acc = Some r -> P r.
Proof.
  intros Hbody. induction fuel as [|fuel IH]; intros x acc r Hacc H; cbn in H.
  - destruct (x <=? hi); [discriminate|]. inversion H. now subst.
  - destruct (x <=? hi); [|inversion H; now subst].
    destruct (body acc x) as [acc'|] eqn:E; [|discriminate].
    apply (IH (roundDouble (x + 1)) acc');
      [now apply (Hbody acc x) | assumption].
Qed.

(** For an anchor within 2^53 - 51 both loops end, and they paint the
    square column by column. *)
Lemma paintLoop_exact (random : nat -> Q) (wx wy : Z) (cells : JSSet.t) :
  Z.abs wx <= twoP53 - 51 -> Z.abs wy <= twoP53 - 51 ->
  paintLoop random wx wy cells = Some (paintSquare random wx wy cells).
Proof.
  intros Hx Hy. unfold paintLoop, paintSquare, forRange.
  rewrite !roundDouble_exact by lia.
  rewrite (forLoop_pointwise _
             (fun acc x =>
                Some (fold_left
                        (fun acc y =>
                           paintCell random acc (cellKey (Some x) (Some y)))
                        (Zrange (wy - 50) (wy + 50)) acc))).
  - apply forLoop_exact; [lia | lia | apply Nat.le_refl].
  - intros acc x. apply forLoop_exact; [lia | lia | apply Nat.le_refl].
Qed.

#[local] Open Scope Q_scope.




(** * Further properties of the engine *)

#[local] Open Scope Z_scope.

(** ** Neighbour counts *)

Lemma count_fold_bounds {A : Type} (f : Z -> A -> Z) (l : list A) :
  (forall n a, n <= f n a <= n + 1) ->
  forall n0, n0 <= fold_left f l n0 <= n0 + Z.of_nat (List.length l).
Proof.
  intros Hf. induction l as [|a l IH]; intros n0; cbn [fold_left List.length].
  - lia.
  - specialize (IH (f n0 a)). specialize (Hf n0 a). lia.
Qed.

(** X1: whatever the live set and the coordinates, numbers or not,
    [getNeighbors] answers a count between 0 and 8. *)
Theorem getNeighbors_range :
  forall (aliveCells : JSSet.t) (x y : num),
    0 <= getNeighbors aliveCells x y <= 8.
Proof.
  intros s x y. unfold getNeighbors.
  apply (count_fold_bounds _ offsets).
  intros n [dx dy]. destruct (JSSet.has s _); lia.
Qed.

(** ** Sets as sets: order and well-formedness *)

Lemma sameMembers_has (s1 s2 : JSSet.t) :
  sameMembers s1 s2 -> forall k, JSSet.has s1 k = JSSet.has s2 k.
Proof.
  intros H k. apply eq_true_iff_eq. rewrite !has_In. apply H.
Qed.

Lemma getNeighbors_sameMembers (s1 s2 : JSSet.t) (x y : num) :
  sameMembers s1 s2 -> getNeighbors s1 x y = getNeighbors s2 x y.
Proof.
  intros H. unfold getNeighbors. apply fold_left_pointwise.
  intros n [dx dy]. now rewrite (sameMembers_has s1 s2 H).
Qed.

Lemma survives_sameMembers (s1 s2 : JSSet.t) (k : string) :
  sameMembers s1 s2 -> survives s1 k = survives s2 k.
Proof.
  intros H. unfold survives.
  destruct (destructure2 (parseKey k)) as [x y]. cbv zeta.
  now rewrite (sameMembers_has s1 s2 H), (getNeighbors_sameMembers s1 s2 x y H).
Qed.

Lemma NoDup_nextGen (s : JSSet.t) : NoDup (nextGen s).
Proof.
  unfold nextGen, JSSet.forEach.
  generalize (candidatesOf s). intros l.
  assert (G : forall acc, NoDup acc ->
    NoDup (fold_left
      (fun newAlive key =>
         let '(x, y) := destructure2 (parseKey key) in
         let alive := JSSet.has s key in
         let neighbors := getNeighbors s x y in
         if alive && ((neighbors =? 2) || (neighbors =? 3)) then
           JSSet.add newAlive key
         else if negb alive && (neighbors =? 3) then
           JSSet.add newAlive key
         else newAlive) l acc)).
  { induction l as [|key l IH]; intros acc Hacc; [assumption|].
    cbn [fold_left]. apply IH.
    destruct (destructure2 (parseKey key)) as [x y]. cbv zeta.
    case_tests; auto using NoDup_add. }
  apply G. constructor.
Qed.

(** X2: [nextGen] treats its input as a set: two live sets with the same
    members, in whatever insertion order, have next generations with the
    same members; and the result never holds a key twice. *)
Theorem nextGen_order_independent :
  forall s1 s2 : JSSet.t,
    sameMembers s1 s2 ->
    sameMembers (nextGen s1) (nextGen s2) /\ NoDup (nextGen s1).
Proof.
  intros s1 s2 H. split; [|apply NoDup_nextGen].
  intros k. rewrite !In_nextGen, !In_candidatesOf.
  rewrite (survives_sameMembers s1 s2 k H).
  split; intros [(key & Hkey & Hk) Hs]; (split; [|assumption]);
    exists key; (split; [apply H; assumption | assumption]).
Qed.

Lemma nextGen_order_independent_witness :
  sameMembers (nextGen (setOfCells [(0, 0); (1, 0); (2, 0)]))
              (nextGen (setOfCells [(2, 0); (0, 0); (1, 0); (0, 0)]))
  /\ NoDup (nextGen (setOfCells [(0, 0); (1, 0); (2, 0)])).
Proof.
  apply (nextGen_order_independent
           (setOfCells [(0, 0); (1, 0); (2, 0)])
           (setOfCells [(2, 0); (0, 0); (1, 0); (0, 0)])).
  intros k. vm_compute. tauto.
Defined.

Lemma nextGen_sameMembers (s1 s2 : JSSet.t) :
  sameMembers s1 s2 -> sameMembers (nextGen s1) (nextGen s2).
Proof.
  intros H k. rewrite !In_nextGen, !In_candidatesOf.
  rewrite (survives_sameMembers s1 s2 k H).
  split; intros [(key & Hkey & Hk) Hs]; (split; [|assumption]);
    exists key; (split; [apply H; assumption | assumption]).
Qed.

Lemma advance_sameMembers (n : nat) (s1 s2 : JSSet.t) :
  sameMembers s1 s2 -> sameMembers (advance n s1) (advance n s2).
Proof.
  intros H. induction n as [|n IH]; [exact H|].
  cbn. now apply nextGen_sameMembers.
Qed.

Lemma neighbor_key_cell (c : Z * Z) (d : Z * Z) :
  cellKey (add (fst (destructure2 (parseKey (keyOf c)))) (Some (fst d)))
          (add (snd (destructure2 (parseKey (keyOf c)))) (Some (snd d)))
  = keyOf (roundDouble (fst c + fst d), roundDouble (snd c + snd d)).
Proof.
  now rewrite destructure2_keyOf.
Qed.

Lemma wellFormed_setOfCells (l : list (Z * Z)) : wellFormed (setOfCells l).
Proof.
  intros k Hk. apply In_setOfCells in Hk as (c & _ & ->). now exists c.
Qed.

Lemma wellFormed_nextGen (s : JSSet.t) :
  wellFormed s -> wellFormed (nextGen s).
Proof.
  intros Hwf k Hk. apply In_nextGen in Hk as [Hk _].
  apply In_candidatesOf in Hk as (key & Hkey & Hk).
  destruct (Hwf key Hkey) as (c & ->).
  destruct Hk as [-> | (d & _ & ->)].
  - now exists c.
  - rewrite neighbor_key_cell. eexists. reflexivity.
Qed.

Lemma wellFormed_advance (n : nat) (s : JSSet.t) :
  wellFormed s -> wellFormed (advance n s).
Proof.
  intros H. induction n as [|n IH]; [exact H|].
  cbn. now apply wellFormed_nextGen.
Qed.

Lemma In_cellsOf (s : JSSet.t) (c : Z * Z) :
  wellFormed s -> (In c (cellsOf s) <-> In (keyOf c) s).
Proof.
  intros Hwf. unfold cellsOf. rewrite in_flat_map. split.
  - intros (key & Hkey & Hc). destruct (Hwf key Hkey) as (c' & ->).
    rewrite destructure2_keyOf in Hc. destruct Hc as [<- | []].
    now destruct c'.
  - intros H. exists (keyOf c). split; [assumption|].
    rewrite destructure2_keyOf. left. now destruct c.
Qed.

Lemma In_keyOf_setOfCells (l : list (Z * Z)) (c : Z * Z) :
  In (keyOf c) (setOfCells l) <-> In c l.
Proof.
  rewrite In_setOfCells. split.
  - intros (d & Hd & E). apply keyOf_inj in E. now subst.
  - intros H. now exists c.
Qed.

Lemma sameMembers_cellsOf (s : JSSet.t) :
  wellFormed s -> sameMembers s (setOfCells (cellsOf s)).
Proof.
  intros Hwf k. split.
  - intros Hk. destruct (Hwf k Hk) as (c & ->).
    apply In_keyOf_setOfCells. now apply In_cellsOf.
  - intros Hk. apply In_setOfCells in Hk as (c & Hc & ->).
    now apply In_cellsOf.
Qed.

(** ** The rule on cells: adjacency, translation, locality *)

Lemma In_moore (c d : Z * Z) :
  In c (mooreNeighborhood d) <->
  c <> d /\ -1 <= fst c - fst d <= 1 /\ -1 <= snd c - snd d <= 1.
Proof.
  destruct c as [a b], d as [x y]. unfold mooreNeighborhood.
  cbn [In fst snd]. unfold not. rewrite !pair_equal_spec. lia.
Qed.

Lemma moore_shift (d c c' : Z * Z) :
  In (shift d c) (mooreNeighborhood (shift d c')) <->
  In c (mooreNeighborhood c').
Proof.
  rewrite !In_moore. destruct c, c', d. unfold shift. cbn [fst snd].
  unfold not. rewrite !pair_equal_spec. lia.
Qed.

Lemma shift_inj (d c c' : Z * Z) : shift d c = shift d c' -> c = c'.
Proof.
  destruct c, c', d. unfold shift. cbn [fst snd].
  rewrite !pair_equal_spec. lia.
Qed.

Lemma shift_back (d c : Z * Z) :
  shift d (shift (- fst d, - snd d) c) = c.
Proof.
  destruct c, d. unfold shift. cbn [fst snd]. f_equal; lia.
Qed.

Lemma isAlive_shift (d : Z * Z) (live : list (Z * Z)) (c : Z * Z) :
  isAlive (map (shift d) live) (shift d c) = isAlive live c.
Proof.
  apply eq_true_iff_eq. rewrite !isAlive_In, in_map_iff. split.
  - intros (c' & E & H). apply shift_inj in E. now subst.
  - intros H. now exists c.
Qed.

Lemma isCandidate_spec (live : list (Z * Z)) (c : Z * Z) :
  isCandidate live c = true <->
  In c live \/ exists d, In d live /\ In c (mooreNeighborhood d).
Proof.
  unfold isCandidate. rewrite orb_true_iff, isAlive_In, existsb_exists.
  split; (intros [H | (d & Hd & H)]; [now left | right; exists d]).
  - split; [assumption|]. apply existsb_exists in H as (c' & Hc' & E).
    apply cell_eqb_eq in E. now subst.
  - split; [assumption|]. apply existsb_exists. exists c.
    split; [assumption | now apply cell_eqb_eq].
Qed.

Lemma isCandidate_shift (d : Z * Z) (live : list (Z * Z)) (c : Z * Z) :
  isCandidate (map (shift d) live) (shift d c) = isCandidate live c.
Proof.
  apply eq_true_iff_eq. rewrite !isCandidate_spec. split.
  - intros [H | (c' & Hc' & H)].
    + left. apply in_map_iff in H as (c0 & E & H).
      apply shift_inj in E. now subst.
    + right. apply in_map_iff in Hc' as (c0 & <- & Hc0).
      exists c0. split; [assumption | now apply moore_shift in H].
  - intros [H | (c' & Hc' & H)].
    + left. now apply in_map.
    + right. exists (shift d c').
      split; [now apply in_map | now apply moore_shift].
Qed.

Lemma length_filter_map {A B : Type} (p : B -> bool) (f : A -> B)
  (l : list A) :
  List.length (filter p (map f l))
  = List.length (filter (fun a => p (f a)) l).
Proof.
  induction l as [|a l IH]; cbn; [reflexivity|].
  destruct (p (f a)); cbn; now rewrite IH.
Qed.

Lemma mooreNeighborhood_shift (d c : Z * Z) :
  mooreNeighborhood (shift d c) = map (shift d) (mooreNeighborhood c).
Proof.
  destruct c as [x y], d as [dx dy]. unfold shift, mooreNeighborhood.
  cbn [fst snd map].
  repeat (f_equal; try (apply pair_equal_spec; split; lia)).
Qed.

Lemma countLiveNeighbors_shift (d : Z * Z) (live : list (Z * Z))
  (c : Z * Z) :
  countLiveNeighbors (map (shift d) live) (shift d c)
  = countLiveNeighbors live c.
Proof.
  unfold countLiveNeighbors.
  rewrite mooreNeighborhood_shift, length_filter_map. do 2 f_equal.
  apply filter_ext. intros a. apply isAlive_shift.
Qed.

Lemma liveNext_shift (d : Z * Z) (live : list (Z * Z)) (c : Z * Z) :
  liveNext (map (shift d) live) (shift d c) = liveNext live c.
Proof.
  unfold liveNext.
  now rewrite isCandidate_shift, isAlive_shift, countLiveNeighbors_shift.
Qed.

Lemma has_nextGen_cells (live : list (Z * Z)) (c : Z * Z) :
  (forall c, In c live -> inRange exactBound c) ->
  JSSet.has (nextGen (setOfCells live)) (keyOf c) = liveNext live c.
Proof.
  intros Hlive. apply eq_true_iff_eq.
  rewrite has_In, In_nextGen, (In_candidates_cells live _ Hlive).
  unfold liveNext. rewrite andb_true_iff. split.
  - intros [(c' & E & H) Hr]. apply keyOf_inj in E. subst c'.
    rewrite survives_keyOf in Hr by (now apply isCandidate_inRange with live).
    now split.
  - intros [H Hr]. split; [now exists c|].
    rewrite survives_keyOf by (now apply isCandidate_inRange with live).
    exact Hr.
Qed.

(** *** Growth by one ring, also where sums are rounded *)

Lemma count_fold_zero {A : Type} (f : Z -> A -> Z) (l : list A) :
  (forall n a, In a l -> f n a = n) ->
  forall n0, fold_left f l n0 = n0.
Proof.
  induction l as [|a l IH]; intros Hf n0; [reflexivity|].
  cbn [fold_left]. rewrite Hf by now left.
  apply IH. intros n b Hb. apply Hf. now right.
Qed.

Lemma getNeighbors_positive (s : JSSet.t) (x y : num) :
  0 < getNeighbors s x y ->
  exists d, In d offsets
            /\ JSSet.has s (cellKey (add x (Some (fst d)))
                                    (add y (Some (snd d)))) = true.
Proof.
  intros Hpos.
  destruct (existsb
              (fun d => JSSet.has s (cellKey (add x (Some (fst d)))
                                             (add y (Some (snd d)))))
              offsets) eqn:E.
  - apply existsb_exists in E as (d & Hd & H). now exists d.
  - exfalso. unfold getNeighbors in Hpos.
    rewrite count_fold_zero in Hpos; [lia|].
    intros n [dx dy] Hd.
    assert (H : JSSet.has s (cellKey (add x (Some dx)) (add y (Some dy)))
                = false).
    { destruct (JSSet.has s _) eqn:Hh; [|reflexivity].
      assert (Ex : existsb
                     (fun d => JSSet.has s (cellKey (add x (Some (fst d)))
                                                    (add y (Some (snd d)))))
                     offsets = true).
      { apply existsb_exists. exists (dx, dy). now split. }
      congruence. }
    now rewrite H.
Qed.

(** A candidate coordinate [c], a rounded [X + dx] for a live [X], that has
    a live rounded neighbour [L] is within one of the live range. *)
Lemma rounded_neighbour_close (X L lo hi c dx dx' : Z) :
  lo <= X <= hi -> lo <= L <= hi ->
  -1 <= dx <= 1 -> -1 <= dx' <= 1 ->
  c = roundDouble (X + dx) -> L = roundDouble (c + dx') ->
  lo - 1 <= c <= hi + 1.
Proof.
  intros HX HL Hdx Hdx' Ec EL.
  pose proof (roundDouble_mono (X + dx) (hi + 1) ltac:(lia)) as Up.
  pose proof (roundDouble_mono (lo - 1) (X + dx) ltac:(lia)) as Down.
  rewrite <- Ec in Up, Down.
  split.
  - destruct (Z.le_gt_cases (lo - 1) c) as [H | H]; [exact H|].
    pose proof (roundDouble_mono (c + dx') (lo - 1) ltac:(lia)). lia.
  - destruct (Z.le_gt_cases c (hi + 1)) as [H | H]; [exact H|].
    pose proof (roundDouble_mono (hi + 1) (c + dx') ltac:(lia)). lia.
Qed.

Lemma nextGen_grows (live : list (Z * Z)) (xlo xhi ylo yhi : Z) :
  (forall c, In c live -> xlo <= fst c <= xhi /\ ylo <= snd c <= yhi) ->
  forall k, In k (nextGen (setOfCells live)) ->
    exists c, k = keyOf c
              /\ xlo - 1 <= fst c <= xhi + 1
              /\ ylo - 1 <= snd c <= yhi + 1.
Proof.
  intros Hbox k Hk.
  apply In_nextGen in Hk as [Hk Hs].
  apply In_candidatesOf in Hk as (key & Hkey & Hk).
  apply In_setOfCells in Hkey as (X & HX & ->).
  destruct Hk as [-> | (d & Hd & ->)].
  - exists X. split; [reflexivity|]. specialize (Hbox X HX). lia.
  - rewrite neighbor_key_cell in Hs |- *.
    set (c := (roundDouble (fst X + fst d), roundDouble (snd X + snd d))) in *.
    exists c. split; [reflexivity|].
    unfold survives in Hs. rewrite destructure2_keyOf in Hs. cbv zeta in Hs.
    rewrite has_setOfCells in Hs.
    destruct (isAlive live c) eqn:Ha.
    + apply isAlive_In in Ha. specialize (Hbox c Ha). lia.
    + cbn [andb orb negb] in Hs. apply Z.eqb_eq in Hs.
      destruct (getNeighbors_positive (setOfCells live)
                  (Some (fst c)) (Some (snd c)) ltac:(lia))
        as (d' & Hd' & Hlive).
      apply has_In, In_setOfCells in Hlive as (L & HL & EL).
      change (cellKey (add (Some (fst c)) (Some (fst d')))
                      (add (Some (snd c)) (Some (snd d'))))
        with (keyOf (roundDouble (fst c + fst d'),
                     roundDouble (snd c + snd d'))) in EL.
      apply keyOf_inj in EL. subst L.
      apply offsets_small in Hd, Hd'.
      pose proof (Hbox X HX) as BX.
      pose proof (Hbox _ HL) as BL. cbn [fst snd] in BL.
      split.
      * apply (rounded_neighbour_close (fst X)
                 (roundDouble (fst c + fst d')) xlo xhi (fst c)
                 (fst d) (fst d')); try reflexivity; tauto.
      * apply (rounded_neighbour_close (snd X)
                 (roundDouble (snd c + snd d')) ylo yhi (snd c)
                 (snd d) (snd d')); try reflexivity; tauto.
Qed.

Lemma advance_setOfCells_cells (n : nat) (live : list (Z * Z)) :
  sameMembers (advance n (setOfCells live))
              (setOfCells (cellsOf (advance n (setOfCells live)))).
Proof.
  apply sameMembers_cellsOf, wellFormed_advance, wellFormed_setOfCells.
Qed.

Lemma advance_within (b : Z) (live : list (Z * Z)) :
  (forall c, In c live -> inRange b c) ->
  forall (n : nat) (k : string),
    In k (advance n (setOfCells live)) ->
    exists c, k = keyOf c /\ inRange (b + Z.of_nat n) c.
Proof.
  intros Hlive. induction n as [|n IH]; intros k Hk.
  - change (advance 0 (setOfCells live)) with (setOfCells live) in Hk.
    apply In_setOfCells in Hk as (c & Hc & ->). exists c.
    split; [reflexivity|]. specialize (Hlive c Hc).
    unfold inRange in *. lia.
  - change (advance (S n) (setOfCells live))
      with (nextGen (advance n (setOfCells live))) in Hk.
    apply (nextGen_sameMembers _ _ (advance_setOfCells_cells n live)) in Hk.
    destruct (nextGen_grows (cellsOf (advance n (setOfCells live)))
                (- (b + Z.of_nat n)) (b + Z.of_nat n)
                (- (b + Z.of_nat n)) (b + Z.of_nat n)) with (k := k)
      as (c & -> & Hx & Hy); [|assumption|].
    + intros c Hc.
      apply In_cellsOf in Hc;
        [|apply wellFormed_advance, wellFormed_setOfCells].
      destruct (IH _ Hc) as (c' & E & Hr). apply keyOf_inj in E. subst c'.
      unfold inRange in Hr. lia.
    + exists c. split; [reflexivity|]. unfold inRange. lia.
Qed.

Lemma advance_shift (n : nat) (d : Z * Z) :
  forall (live : list (Z * Z)) (c : Z * Z),
    (forall c, In c live ->
       inRange (exactBound - Z.of_nat n) c
       /\ inRange (exactBound - Z.of_nat n) (shift d c)) ->
    (In (keyOf (shift d c)) (advance n (setOfCells (map (shift d) live)))
     <-> In (keyOf c) (advance n (setOfCells live))).
Proof.
  induction n as [|n IH]; intros live c Hlive.
  - change (advance 0 (setOfCells (map (shift d) live)))
      with (setOfCells (map (shift d) live)).
    change (advance 0 (setOfCells live)) with (setOfCells live).
    rewrite !In_keyOf_setOfCells, in_map_iff. split.
    + intros (c' & E & H). apply shift_inj in E. now subst.
    + intros H. now exists c.
  - assert (Hlive' : forall c, In c live ->
              inRange (exactBound - Z.of_nat n) c
              /\ inRange (exactBound - Z.of_nat n) (shift d c)).
    { intros c0 Hc0. destruct (Hlive c0 Hc0) as [H1 H2].
      unfold inRange in *. lia. }
    assert (Hin : forall c0, In c0 live ->
              inRange (exactBound - Z.of_nat (S n)) c0)
      by (intros c0 Hc0; apply Hlive, Hc0).
    assert (Hin' : forall c0, In c0 (map (shift d) live) ->
              inRange (exactBound - Z.of_nat (S n)) c0).
    { intros c0 Hc0. apply in_map_iff in Hc0 as (c1 & <- & Hc1).
      apply Hlive, Hc1. }
    change (advance (S n) (setOfCells (map (shift d) live)))
      with (nextGen (advance n (setOfCells (map (shift d) live)))).
    change (advance (S n) (setOfCells live))
      with (nextGen (advance n (setOfCells live))).
    set (A := advance n (setOfCells live)).
    set (A' := advance n (setOfCells (map (shift d) live))).
    assert (HA : sameMembers A (setOfCells (cellsOf A)))
      by apply advance_setOfCells_cells.
    assert (HA' : sameMembers A' (setOfCells (map (shift d) (cellsOf A)))).
    { intros k. split.
      - intros Hk.
        destruct (wellFormed_advance n _
                    (wellFormed_setOfCells (map (shift d) live)) k Hk)
          as (c' & ->).
        apply In_keyOf_setOfCells, in_map_iff.
        exists (shift (- fst d, - snd d) c'). split; [apply shift_back|].
        apply In_cellsOf;
          [apply wellFormed_advance, wellFormed_setOfCells|].
        apply (IH live _ Hlive'). now rewrite shift_back.
      - intros Hk. apply In_setOfCells in Hk as (c' & Hc' & ->).
        apply in_map_iff in Hc' as (c0 & <- & Hc0).
        apply (IH live _ Hlive'). apply In_cellsOf in Hc0; [assumption|].
        apply wellFormed_advance, wellFormed_setOfCells. }
    assert (RA : forall c0, In c0 (cellsOf A) -> inRange exactBound c0).
    { intros c0 Hc0.
      apply In_cellsOf in Hc0;
        [|apply wellFormed_advance, wellFormed_setOfCells].
      destruct (advance_within _ live Hin n _ Hc0) as (c1 & E & Hr).
      apply keyOf_inj in E. subst c1. unfold inRange in *. lia. }
    assert (RA' : forall c0, In c0 (map (shift d) (cellsOf A)) ->
                    inRange exactBound c0).
    { intros c0 Hc0.
      assert (Hk : In (keyOf c0) A').
      { apply HA'. now apply In_keyOf_setOfCells. }
      destruct (advance_within _ (map (shift d) live) Hin' n _ Hk)
        as (c1 & E & Hr).
      apply keyOf_inj in E. subst c1. unfold inRange in *. lia. }
    rewrite (nextGen_sameMembers _ _ HA' (keyOf (shift d c))).
    rewrite (nextGen_sameMembers _ _ HA (keyOf c)).
    rewrite <- !has_In, !has_nextGen_cells by assumption.
    now rewrite liveNext_shift.
Qed.

(** X3: within the range where neighbours are exact, the generation
    advance commutes with translation: if a pattern and the pattern moved by
    a vector both have coordinates of magnitude at most 2^53 - 2 - n, then
    after [n] generations the moved pattern is the pattern moved. *)
Theorem advance_translation_invariant :
  forall (n : nat) (d : Z * Z) (live : list (Z * Z)) (c : Z * Z),
    (forall c, In c live ->
       inRange (exactBound - Z.of_nat n) c
       /\ inRange (exactBound - Z.of_nat n) (shift d c)) ->
    JSSet.has (advance n (setOfCells (map (shift d) live))) (keyOf (shift d c))
    = JSSet.has (advance n (setOfCells live)) (keyOf c).
Proof.
  intros n d live c Hlive. apply eq_true_iff_eq. rewrite !has_In.
  now apply advance_shift.
Qed.

Lemma advance_translation_invariant_witness :
  JSSet.has (advance 2 (setOfCells (map (shift (1000, -7))
                                      [(0, 0); (1, 0); (2, 0)])))
    (keyOf (shift (1000, -7) (1, 1)))
  = JSSet.has (advance 2 (setOfCells [(0, 0); (1, 0); (2, 0)])) (keyOf (1, 1)).
Proof.
  apply (advance_translation_invariant 2 (1000, -7)
           [(0, 0); (1, 0); (2, 0)] (1, 1)).
  intros c Hc. cbn in Hc.
  destruct Hc as [<- | [<- | [<- | []]]]; repeat split; cbn; discriminate.
Defined.

(** X4: the live region grows by at most one ring per generation: when
    every live cell lies in the box [[xlo, xhi] x [ylo, yhi]], every cell
    of the next generation lies in the box one cell larger on each side. *)
Theorem nextGen_bounding_box :
  forall (live : list (Z * Z)) (xlo xhi ylo yhi : Z),
    (forall c, In c live -> xlo <= fst c <= xhi /\ ylo <= snd c <= yhi) ->
    forall k, In k (nextGen (setOfCells live)) ->
      exists c, k = keyOf c
                /\ xlo - 1 <= fst c <= xhi + 1
                /\ ylo - 1 <= snd c <= yhi + 1.
Proof.
  exact nextGen_grows.
Qed.

Lemma nextGen_bounding_box_witness :
  exists c, keyOf (1, -1) = keyOf c
            /\ 0 - 1 <= fst c <= 2 + 1 /\ 0 - 1 <= snd c <= 0 + 1.
Proof.
  apply (nextGen_bounding_box [(0, 0); (1, 0); (2, 0)] 0 2 0 0).
  - intros c Hc. cbn in Hc.
    destruct Hc as [<- | [<- | [<- | []]]]; cbn; lia.
  - vm_compute. tauto.
Defined.

(** ** Small populations *)

Lemma cell_eq_dec (a b : Z * Z) : {a = b} + {a <> b}.
Proof.
  decide equality; apply Z.eq_dec.
Defined.

Lemma NoDup_moore (c : Z * Z) : NoDup (mooreNeighborhood c).
Proof.
  destruct c as [x y]. unfold mooreNeighborhood.
  repeat constructor; cbn [In]; unfold not; rewrite ?pair_equal_spec; lia.
Qed.

Lemma countLiveNeighbors_others (live : list (Z * Z)) (c : Z * Z) :
  countLiveNeighbors live c
  <= Z.of_nat (List.length (remove cell_eq_dec c live)).
Proof.
  unfold countLiveNeighbors. apply inj_le.
  apply NoDup_incl_length; [apply NoDup_filter, NoDup_moore|].
  intros d Hd. apply filter_In in Hd as [Hd Halive].
  apply isAlive_In in Halive. apply In_moore in Hd as [Hneq _].
  now apply in_in_remove.
Qed.

(** X5: a population of fewer than three cells, at coordinates of
    magnitude at most 2^53 - 2 where neighbours are exact, has no next
    generation: nothing survives and nothing is born. *)
Theorem nextGen_small_population_dies :
  forall live : list (Z * Z),
    (forall c, In c live -> inRange exactBound c) ->
    (List.length live <= 2)%nat -> nextGen (setOfCells live) = JSSet.empty.
Proof.
  intros live Hlive Hlen.
  destruct (nextGen (setOfCells live)) as [|k rest] eqn:E; [reflexivity|].
  exfalso.
  assert (Hk : In k (nextGen (setOfCells live))) by (rewrite E; now left).
  apply In_nextGen in Hk as [Hk Hs].
  apply (In_candidates_cells live _ Hlive) in Hk as (c & -> & Hc).
  rewrite survives_keyOf in Hs by (now apply isCandidate_inRange with live).
  pose proof (countLiveNeighbors_others live c) as Hcount.
  assert (Hpos : 0 <= countLiveNeighbors live c).
  { unfold countLiveNeighbors. lia. }
  unfold lifeRule in Hs. destruct (isAlive live c) eqn:Ha.
  - apply isAlive_In in Ha.
    pose proof (remove_length_lt cell_eq_dec live c Ha) as Hlt.
    apply orb_true_iff in Hs as [Hs | Hs]; apply Z.eqb_eq in Hs; lia.
  - pose proof (remove_length_le cell_eq_dec live c) as Hle.
    apply Z.eqb_eq in Hs. lia.
Qed.

Lemma nextGen_small_population_dies_witness :
  nextGen (setOfCells [(5, 5); (6, 6)]) = JSSet.empty.
Proof.
  apply (nextGen_small_population_dies [(5, 5); (6, 6)]).
  - intros c Hc. cbn in Hc.
    destruct Hc as [<- | [<- | []]]; split; cbn; discriminate.
  - cbn. lia.
Defined.

(** ** Patterns at any exact position *)

Lemma setOfCells_sameMembers (l1 l2 : list (Z * Z)) :
  (forall c, In c l1 <-> In c l2) ->
  sameMembers (setOfCells l1) (setOfCells l2).
Proof.
  intros H k. rewrite !In_setOfCells.
  split; intros (c & Hc & ->); exists c; (split; [now apply H | reflexivity]).
Qed.

Lemma pattern_at (n : nat) (d : Z * Z) (p0 q0 p q : list (Z * Z)) :
  (forall c, In c p0 ->
     inRange (exactBound - Z.of_nat n) c
     /\ inRange (exactBound - Z.of_nat n) (shift d c)) ->
  (forall c, In c p <-> In c (map (shift d) p0)) ->
  (forall c, In c q <-> In c (map (shift d) q0)) ->
  sameMembers (advance n (setOfCells p0)) (setOfCells q0) ->
  sameMembers (advance n (setOfCells p)) (setOfCells q).
Proof.
  intros Hr Hp Hq H0 k.
  rewrite (advance_sameMembers n _ _ (setOfCells_sameMembers _ _ Hp) k).
  rewrite (setOfCells_sameMembers _ _ Hq k).
  split.
  - intros Hk.
    destruct (wellFormed_advance n _
                (wellFormed_setOfCells (map (shift d) p0)) k Hk) as (c & ->).
    rewrite <- (shift_back d c) in Hk |- *.
    apply (advance_shift n d p0 _ Hr), H0, In_keyOf_setOfCells in Hk.
    apply In_keyOf_setOfCells, in_map. exact Hk.
  - intros Hk. apply In_setOfCells in Hk as (c & Hc & ->).
    apply in_map_iff in Hc as (c0 & <- & Hc0).
    apply (advance_shift n d p0 _ Hr), H0, In_keyOf_setOfCells. exact Hc0.
Qed.

(** Membership in a pattern and in the moved pattern at the origin, as
    arithmetic on the coordinates. *)
Ltac same_cells :=
  intros [a b];
  unfold gliderAt, blockAt, blinkerRow, blinkerColumn;
  cbn [map In]; unfold shift; cbn [fst snd];
  rewrite ?pair_equal_spec; lia.

(** The pattern at the origin and the moved pattern stay where neighbours
    are exact. *)
Ltac exact_cells :=
  unfold gliderAt, blockAt, blinkerRow, blinkerColumn;
  intros c Hc; cbn [In] in Hc;
  unfold inRange, shift, exactBound, twoP53 in *;
  repeat (destruct Hc as [<- | Hc]; [cbn [fst snd Z.of_nat]; lia|]);
  destruct Hc.

Ltac evaluated_pattern :=
  intros k; vm_compute; tauto.

Lemma initGlider_exact (x y : Z) :
  Z.abs x <= twoP53 - 2 -> Z.abs y <= twoP53 - 2 ->
  initGlider x y JSSet.empty = setOfCells (gliderAt x y).
Proof.
  intros Hx Hy. unfold initGlider, gliderAt.
  rewrite !roundDouble_exact by lia. reflexivity.
Qed.

(** X6: a glider seeded at an origin of magnitude at most 2^53 - 8 is, four
    generations later, the glider seeded one cell further right and down. *)
Theorem glider_anywhere :
  forall x y : Z,
    Z.abs x <= twoP53 - 8 -> Z.abs y <= twoP53 - 8 ->
    sameMembers (advance 4 (initGlider x y JSSet.empty))
                (initGlider (x + 1) (y + 1) JSSet.empty).
Proof.
  intros x y Hx Hy.
  rewrite !initGlider_exact by (unfold twoP53 in *; lia).
  apply (pattern_at 4 (x, y) (gliderAt 0 0) (gliderAt 1 1)).
  - exact_cells.
  - same_cells.
  - same_cells.
  - evaluated_pattern.
Qed.

Lemma glider_anywhere_witness :
  sameMembers (advance 4 (initGlider 120 (-45) JSSet.empty))
              (initGlider (120 + 1) (-45 + 1) JSSet.empty).
Proof.
  apply (glider_anywhere 120 (-45)); cbn; discriminate.
Defined.

(** X7: a 2 x 2 block is a still life at every position of magnitude at
    most 2^53 - 8. *)
Theorem block_still_life :
  forall x y : Z,
    Z.abs x <= twoP53 - 8 -> Z.abs y <= twoP53 - 8 ->
    sameMembers (nextGen (setOfCells (blockAt x y))) (setOfCells (blockAt x y)).
Proof.
  intros x y Hx Hy.
  apply (pattern_at 1 (x, y) (blockAt 0 0) (blockAt 0 0)).
  - exact_cells.
  - same_cells.
  - same_cells.
  - evaluated_pattern.
Qed.

Lemma block_still_life_witness :
  sameMembers (nextGen (setOfCells (blockAt (-3) 1000)))
              (setOfCells (blockAt (-3) 1000)).
Proof.
  apply (block_still_life (-3) 1000); cbn; discriminate.
Defined.

(** X8: at every position of magnitude at most 2^53 - 8, a row of three
    cells becomes the column through its centre after one generation, the
    column becomes the row again, so the blinker has period 2. *)
Theorem blinker_period_two :
  forall x y : Z,
    Z.abs x <= twoP53 - 8 -> Z.abs y <= twoP53 - 8 ->
    sameMembers (nextGen (setOfCells (blinkerRow x y)))
                (setOfCells (blinkerColumn x y))
    /\ sameMembers (nextGen (setOfCells (blinkerColumn x y)))
                   (setOfCells (blinkerRow x y))
    /\ sameMembers (advance 2 (setOfCells (blinkerRow x y)))
                   (setOfCells (blinkerRow x y)).
Proof.
  intros x y Hx Hy. split; [|split].
  - apply (pattern_at 1 (x, y) (blinkerRow 0 0) (blinkerColumn 0 0)).
    + exact_cells.
    + same_cells.
    + same_cells.
    + evaluated_pattern.
  - apply (pattern_at 1 (x, y) (blinkerColumn 0 0) (blinkerRow 0 0)).
    + exact_cells.
    + same_cells.
    + same_cells.
    + evaluated_pattern.
  - apply (pattern_at 2 (x, y) (blinkerRow 0 0) (blinkerRow 0 0)).
    + exact_cells.
    + same_cells.
    + same_cells.
    + evaluated_pattern.
Qed.

Lemma blinker_period_two_witness :
  sameMembers (nextGen (setOfCells (blinkerRow 7 (-2))))
              (setOfCells (blinkerColumn 7 (-2)))
  /\ sameMembers (nextGen (setOfCells (blinkerColumn 7 (-2))))
                 (setOfCells (blinkerRow 7 (-2)))
  /\ sameMembers (advance 2 (setOfCells (blinkerRow 7 (-2))))
                 (setOfCells (blinkerRow 7 (-2))).
Proof.
  apply (blinker_period_two 7 (-2)); cbn; discriminate.
Defined.

(** * Further properties of the application state *)

(** ** The live set stays a set of integer cells *)

Lemma wellFormed_add (s : JSSet.t) (c : Z * Z) :
  wellFormed s -> wellFormed (JSSet.add s (keyOf c)).
Proof.
  intros H k Hk. apply In_add in Hk as [Hk | ->]; [now apply H | now exists c].
Qed.

Lemma NoDup_delete (s : JSSet.t) (k : string) :
  NoDup s -> NoDup (JSSet.delete s k).
Proof.
  apply NoDup_filter.
Qed.

Lemma wellFormed_delete (s : JSSet.t) (k : string) :
  wellFormed s -> wellFormed (JSSet.delete s k).
Proof.
  intros H k' Hk'. apply In_delete in Hk' as [Hk' _]. now apply H.
Qed.

Lemma paint_keeps_set (random : nat -> Q) (ks : list string) :
  (forall k, In k ks -> exists c, k = keyOf c) ->
  forall (cells : JSSet.t) (n : nat),
    NoDup cells /\ wellFormed cells ->
    NoDup (fst (fold_left (paintCell random) ks (cells, n)))
    /\ wellFormed (fst (fold_left (paintCell random) ks (cells, n))).
Proof.
  induction ks as [|key ks IH]; intros Hks cells n [Hnd Hwf];
    [split; assumption|].
  cbn [fold_left].
  destruct (Hks key (or_introl eq_refl)) as (c & ->).
  unfold paintCell at 2 4.
  apply IH; [intros k Hk; apply Hks; now right|].
  case_tests; split;
    auto using NoDup_add, NoDup_delete, wellFormed_add, wellFormed_delete.
Qed.

Lemma handle_keeps_set (ev : Event) (s : State) :
  NoDup (aliveCells s) /\ wellFormed (aliveCells s) ->
  NoDup (aliveCells (handle ev s)) /\ wellFormed (aliveCells (handle ev s)).
Proof.
  intros [Hnd Hwf]. destruct ev; cbn [handle]; try (split; assumption).
  - unfold onMouseDown. case_tests; split; assumption.
  - unfold onMouseUp. case_tests; split; assumption.
  - unfold onMouseMove. case_tests; split; assumption.
  - unfold onClick. destruct (isDragging s || negb (paused s));
      [split; assumption|].
    destruct (paintLoop _ _ _ _) as [[cells n]|] eqn:E; [|split; assumption].
    cbn [aliveCells set_aliveCells].
    set (P := fun a : JSSet.t * nat => NoDup (fst a) /\ wellFormed (fst a)).
    change (P (cells, n)).
    unfold paintLoop, forRange in E.
    refine (forLoop_invariant P _ _ _ _ _ _ _ _ E); [|split; assumption].
    intros a x a' Ha Ea.
    refine (forLoop_invariant P _ _ _ _ _ _ _ Ha Ea).
    intros [cells0 n0] y b Hb Eb. inversion Eb. subst b.
    apply (paint_keeps_set random [keyOf (x, y)]); [|exact Hb].
    intros k [<- | []]. now exists (x, y).
  - destruct (loop_clock timestamp s) as (-> & _).
    case_tests; split;
      auto using NoDup_nextGen, wellFormed_nextGen.
Qed.

Lemma startup_is_set (w h : Q) :
  NoDup (aliveCells (startup w h)) /\ wellFormed (aliveCells (startup w h)).
Proof.
  change (aliveCells (startup w h)) with (setOfCells (gliderAt 0 0)).
  split; [|apply wellFormed_setOfCells].
  vm_compute. repeat constructor; cbn; intuition discriminate.
Qed.

(** X9: after start-up and any sequence of events, [aliveCells] holds no
    key twice, and every key is the key of a cell with integer coordinates:
    it parses back to the two coordinates it was built from, never to
    [NaN]. *)
Theorem aliveCells_always_cells :
  forall (w h : Q) (evs : list Event),
    NoDup (aliveCells (run evs (startup w h)))
    /\ (forall k, In k (aliveCells (run evs (startup w h))) ->
          exists x y : Z,
            k = cellKey (Some x) (Some y)
            /\ parseKey k = [Some x; Some y]).
Proof.
  intros w h evs.
  assert (G : forall s,
    NoDup (aliveCells s) /\ wellFormed (aliveCells s) ->
    NoDup (aliveCells (run evs s)) /\ wellFormed (aliveCells (run evs s))).
  { unfold run. induction evs as [|ev evs IH]; intros s Hs; [exact Hs|].
    cbn [fold_left]. apply IH. now apply handle_keeps_set. }
  destruct (G (startup w h) (startup_is_set w h)) as [Hnd Hwf].
  split; [exact Hnd|].
  intros k Hk. destruct (Hwf k Hk) as ([x y] & ->).
  exists x, y. split; [reflexivity | apply parseKey_cellKey].
Qed.

(** ** The clock over many frames *)

#[local] Open Scope Q_scope.

Lemma loop_settings (t : Q) (s : State) :
  paused (loop t s) = paused s /\ delay (loop t s) = delay s.
Proof.
  unfold loop. case_tests; split; reflexivity.
Qed.

Lemma run_cons (ev : Event) (evs : list Event) (s : State) :
  run (ev :: evs) s = run evs (handle ev s).
Proof.
  reflexivity.
Qed.

Lemma frames_while_paused (ts : list Q) :
  forall s : State,
    paused s = true ->
    aliveCells (run (frames ts) s) = aliveCells s
    /\ generation (run (frames ts) s) = generation s
    /\ paused (run (frames ts) s) = true.
Proof.
  induction ts as [|t ts IH]; intros s Hp; [now repeat split|].
  unfold frames. cbn [map]. rewrite run_cons. cbn [handle].
  fold (frames ts).
  destruct (loop_settings t s) as [Hp' _]. rewrite Hp in Hp'.
  destruct (IH (loop t s) Hp') as (-> & -> & ->).
  destruct (loop_clock t s) as (Ha & Hg & _). rewrite Hp in Ha, Hg.
  now repeat split.
Qed.

(** X10: pausing a running simulation, letting any frames go by and
    resuming leaves the live set and the number of generations computed
    exactly as they were: no generation is owed for the time spent paused. *)
Theorem pause_frames_resume :
  forall (ts : list Q) (s : State),
    paused s = false ->
    aliveCells (onPauseClick (run (frames ts) (onPauseClick s)))
    = aliveCells s
    /\ generation (onPauseClick (run (frames ts) (onPauseClick s)))
       = generation s
    /\ paused (onPauseClick (run (frames ts) (onPauseClick s))) = false.
Proof.
  intros ts s Hp.
  assert (Hp' : paused (onPauseClick s) = true) by (cbn; now rewrite Hp).
  destruct (frames_while_paused ts (onPauseClick s) Hp') as (Ha & Hg & Hq).
  cbn [onPauseClick aliveCells generation paused set_paused].
  rewrite Ha, Hg, Hq. now repeat split.
Qed.

Lemma pause_frames_resume_witness :
  aliveCells (onPauseClick
                (run (frames [16; 1000; 5000]%Q)
                   (onPauseClick (startup 800 600))))
  = aliveCells (startup 800 600)
  /\ generation (onPauseClick
                   (run (frames [16; 1000; 5000]%Q)
                      (onPauseClick (startup 800 600))))
     = generation (startup 800 600)
  /\ paused (onPauseClick
               (run (frames [16; 1000; 5000]%Q)
                  (onPauseClick (startup 800 600))))
     = false.
Proof.
  apply (pause_frames_resume [16; 1000; 5000]%Q (startup 800 600)).
  reflexivity.
Defined.

Lemma loop_gated (t : Q) (s : State) :
  0 <= delay s -> 0 < lastFrame s ->
  (generation (loop t s) = generation s
   /\ lastFrame (loop t s) = lastFrame s)
  \/ (generation (loop t s) = S (generation s)
      /\ lastFrame (loop t s) = t
      /\ delay s < t - lastFrame s).
Proof.
  intros Hd Hl. destruct (loop_clock t s) as (_ & Hg & Hf).
  assert (E : Qeq_bool (lastFrame s) 0 = false).
  { destruct (Qeq_bool (lastFrame s) 0) eqn:E; [|reflexivity].
    apply Qeq_bool_iff in E. lra. }
  rewrite E in Hg, Hf.
  destruct (negb (paused s) && Qltb (delay s) (t - lastFrame s)) eqn:Due.
  - right. apply andb_true_iff in Due as [_ Due].
    apply Qltb_lt in Due. auto.
  - left. auto.
Qed.

(** X11: the delay gates the frame loop over any sequence of frames:
    every generation computed moves [lastFrame] forward by more than the
    delay, so the number of generations times the delay is at most the time
    between the first [lastFrame] and the last one, which is the timestamp
    of one of the frames. *)
Theorem frames_delay_gating :
  forall (ts : list Q) (s : State),
    0 <= delay s -> 0 < lastFrame s ->
    (generation s <= generation (run (frames ts) s))%nat
    /\ inject_Z (Z.of_nat (generation (run (frames ts) s) - generation s))
         * delay s
       <= lastFrame (run (frames ts) s) - lastFrame s
    /\ (lastFrame (run (frames ts) s) = lastFrame s
        \/ In (lastFrame (run (frames ts) s)) ts).
Proof.
  induction ts as [|t ts IH]; intros s Hd Hl.
  - change (run (frames []) s) with s. rewrite Nat.sub_diag.
    change (inject_Z (Z.of_nat 0)) with 0.
    repeat split; [lia | lra | now left].
  - unfold frames. cbn [map]. rewrite run_cons. cbn [handle].
    fold (frames ts).
    destruct (loop_settings t s) as [_ Hdelay].
    assert (Hd1 : 0 <= delay (loop t s)) by now rewrite Hdelay.
    destruct (loop_gated t s Hd Hl) as [(Hg & Hf) | (Hg & Hf & Hlt)].
    + assert (Hl1 : 0 < lastFrame (loop t s)) by now rewrite Hf.
      destruct (IH (loop t s) Hd1 Hl1) as (Hmono & Hbound & Hlast).
      rewrite Hg, Hf, Hdelay in *. repeat split; trivial.
      destruct Hlast as [-> | Hin]; [now left | right; now right].
    + assert (Hl1 : 0 < lastFrame (loop t s)) by (rewrite Hf; lra).
      destruct (IH (loop t s) Hd1 Hl1) as (Hmono & Hbound & Hlast).
      rewrite Hg, Hf, Hdelay in *. split; [lia|]. split.
      * replace (generation (run (frames ts) (loop t s)) - generation s)%nat
          with (S (generation (run (frames ts) (loop t s))
                   - S (generation s)))%nat by lia.
        rewrite Nat2Z.inj_succ. unfold Z.succ. rewrite inject_Z_plus.
        change (inject_Z 1) with 1.
        set (K := inject_Z (Z.of_nat
                 (generation (run (frames ts) (loop t s))
                  - S (generation s)))) in *.
        setoid_replace ((K + 1) * delay s) with (K * delay s + delay s)
          by ring.
        lra.
      * destruct Hlast as [-> | Hin]; right; [now left | now right].
Qed.

Lemma frames_delay_gating_witness :
  (generation (loop 5 (onSpeedDownClick (startup 800 600)))
   <= generation (run (frames [10; 15; 20; 25; 30; 35; 40]%Q)
                    (loop 5 (onSpeedDownClick (startup 800 600)))))%nat
  /\ inject_Z (Z.of_nat
       (generation (run (frames [10; 15; 20; 25; 30; 35; 40]%Q)
                      (loop 5 (onSpeedDownClick (startup 800 600))))
        - generation (loop 5 (onSpeedDownClick (startup 800 600)))))
       * delay (loop 5 (onSpeedDownClick (startup 800 600)))
     <= lastFrame (run (frames [10; 15; 20; 25; 30; 35; 40]%Q)
                     (loop 5 (onSpeedDownClick (startup 800 600))))
        - lastFrame (loop 5 (onSpeedDownClick (startup 800 600)))
  /\ (lastFrame (run (frames [10; 15; 20; 25; 30; 35; 40]%Q)
                   (loop 5 (onSpeedDownClick (startup 800 600))))
      = lastFrame (loop 5 (onSpeedDownClick (startup 800 600)))
      \/ In (lastFrame (run (frames [10; 15; 20; 25; 30; 35; 40]%Q)
                          (loop 5 (onSpeedDownClick (startup 800 600)))))
            [10; 15; 20; 25; 30; 35; 40]%Q).
Proof.
  apply (frames_delay_gating [10; 15; 20; 25; 30; 35; 40]%Q
           (loop 5 (onSpeedDownClick (startup 800 600)))).
  - vm_compute. discriminate.
  - vm_compute. reflexivity.
Defined.

Lemma advance_nextGen (n : nat) (s : JSSet.t) :
  advance n (nextGen s) = advance (S n) s.
Proof.
  unfold advance. symmetry. apply Nat.iter_succ_r.
Qed.

(** X12: with delay 0, a running simulation whose [lastFrame] is set
    computes exactly one generation on every frame of a strictly
    increasing sequence of timestamps: after [n] such frames the live set is
    the [n]-th generation. *)
Theorem frames_without_delay :
  forall (ts : list Q) (s : State),
    paused s = false -> delay s == 0 -> 0 < lastFrame s ->
    increasingFrom (lastFrame s) ts ->
    aliveCells (run (frames ts) s)
    = advance (List.length ts) (aliveCells s)
    /\ generation (run (frames ts) s)
       = (generation s + List.length ts)%nat.
Proof.
  induction ts as [|t ts IH]; intros s Hp Hd Hl Hinc.
  - change (run (frames []) s) with s. cbn. split; [reflexivity | lia].
  - destruct Hinc as [Hlt Hinc].
    unfold frames. cbn [map]. rewrite run_cons. cbn [handle].
    fold (frames ts).
    destruct (loop_settings t s) as [Hp' Hd'].
    destruct (loop_clock t s) as (Ha & Hg & Hf).
    assert (E : Qeq_bool (lastFrame s) 0 = false).
    { destruct (Qeq_bool (lastFrame s) 0) eqn:E; [|reflexivity].
      apply Qeq_bool_iff in E. lra. }
    assert (Due : Qltb (delay s) (t - lastFrame s) = true).
    { apply Qltb_lt. lra. }
    rewrite E, Hp, Due in Ha, Hg, Hf. cbn in Ha, Hg, Hf.
    destruct (IH (loop t s)) as [Ha' Hg'].
    + now rewrite Hp'.
    + now rewrite Hd'.
    + rewrite Hf. lra.
    + now rewrite Hf.
    + rewrite Ha', Hg', Ha, Hg. cbn [List.length].
      split; [apply advance_nextGen | lia].
Qed.

Lemma frames_without_delay_witness :
  aliveCells (run (frames [33; 50; 66; 83]%Q) (loop 16 (startup 800 600)))
  = advance 4 (aliveCells (loop 16 (startup 800 600)))
  /\ generation (run (frames [33; 50; 66; 83]%Q) (loop 16 (startup 800 600)))
     = (generation (loop 16 (startup 800 600)) + 4)%nat.
Proof.
  apply (frames_without_delay [33; 50; 66; 83]%Q (loop 16 (startup 800 600))).
  - reflexivity.
  - reflexivity.
  - reflexivity.
  - cbn. repeat split.
Defined.

(** ** Rate controls *)

Lemma delay_handle (ev : Event) (s : State) :
  (exists n : nat, delay s == inject_Z (20 * Z.of_nat n)) ->
  exists n : nat, delay (handle ev s) == inject_Z (20 * Z.of_nat n).
Proof.
  intros (n & Hn).
  destruct ev; cbn [handle];
    try (exists n; exact Hn).
  - unfold onMouseDown. case_tests; exists n; exact Hn.
  - unfold onMouseUp. case_tests; exists n; exact Hn.
  - unfold onMouseMove. case_tests; exists n; exact Hn.
  - unfold onClick. destruct (isDragging s || negb (paused s));
      [exists n; exact Hn|].
    destruct (paintLoop _ _ _ _) as [[? ?]|]; exists n; exact Hn.
  - unfold onSpeedUpClick. cbn [delay set_delay]. destruct n as [|n].
    + exists 0%nat. rewrite Q.max_l; [reflexivity|].
      rewrite Hn. discriminate.
    + exists n. rewrite Q.max_r.
      * rewrite Hn, Nat2Z.inj_succ. unfold Z.succ.
        rewrite !inject_Z_mult, !inject_Z_plus. ring.
      * rewrite Hn, Nat2Z.inj_succ. unfold Z.succ.
        rewrite !inject_Z_mult, !inject_Z_plus.
        assert (0 <= inject_Z (Z.of_nat n)).
        { change 0 with (inject_Z 0). rewrite <- Zle_Qle. lia. }
        change (inject_Z 20) with 20. change (inject_Z 1) with 1. lra.
  - exists (S n). unfold onSpeedDownClick. cbn [delay set_delay].
    rewrite Hn, Nat2Z.inj_succ. unfold Z.succ.
    rewrite !inject_Z_mult, !inject_Z_plus. ring.
  - destruct (loop_settings timestamp s) as [_ ->]. exists n; exact Hn.
Qed.

(** X13: after start-up and any sequence of events the delay is a
    non-negative whole multiple of 20: speeding up never takes it below 0. *)
Theorem delay_always_multiple_of_20 :
  forall (w h : Q) (evs : list Event),
    0 <= delay (run evs (startup w h))
    /\ exists n : nat,
         delay (run evs (startup w h)) == inject_Z (20 * Z.of_nat n).
Proof.
  intros w h evs.
  assert (G : forall s,
    (exists n : nat, delay s == inject_Z (20 * Z.of_nat n)) ->
    exists n : nat, delay (run evs s) == inject_Z (20 * Z.of_nat n)).
  { unfold run. induction evs as [|ev evs IH]; intros s Hs; [exact Hs|].
    cbn [fold_left]. apply IH. now apply delay_handle. }
  destruct (G (startup w h)) as (n & Hn).
  { exists 0%nat. reflexivity. }
  split; [|now exists n].
  rewrite Hn. change 0 with (inject_Z 0). rewrite <- Zle_Qle. lia.
Qed.

(** X14: slowing down and then speeding up gives back the delay, and
    touches nothing else, whenever the delay is not negative; speeding up
    at a delay of at most 20 gives 0. *)
Theorem speed_down_up :
  forall s : State,
    0 <= delay s ->
    delay (onSpeedUpClick (onSpeedDownClick s)) == delay s
    /\ set_delay (delay s) (onSpeedUpClick (onSpeedDownClick s)) = s
    /\ (delay s <= 20 -> delay (onSpeedUpClick s) == 0).
Proof.
  intros s Hd. split; [|split].
  - cbn. rewrite Q.max_r; [ring | lra].
  - destruct s. reflexivity.
  - intros H. cbn. apply Q.max_l. lra.
Qed.

Lemma speed_down_up_witness :
  delay (onSpeedUpClick (onSpeedDownClick (startup 800 600)))
  == delay (startup 800 600)
  /\ set_delay (delay (startup 800 600))
       (onSpeedUpClick (onSpeedDownClick (startup 800 600)))
     = startup 800 600
  /\ (delay (startup 800 600) <= 20 ->
      delay (onSpeedUpClick (startup 800 600)) == 0).
Proof.
  apply (speed_down_up (startup 800 600)). discriminate.
Defined.

(** ** Dragging and zooming *)





(** X16: zooming in never lowers the zoom and zooming out never raises it,
    as long as the zoom is within [1, 50]; at 50 zooming in, and at 1
    zooming out, leave it where it is. *)
Theorem onWheel_zoom_monotone :
  forall (rect : DOMRect) (e : MouseEvent) (s : State),
    1 <= zoom s <= 50 ->
    (deltaY e < 0 ->
       zoom s <= zoom (onWheel rect e s)
       /\ (zoom s == 50 -> zoom (onWheel rect e s) == 50))
    /\ (~ deltaY e < 0 ->
          zoom (onWheel rect e s) <= zoom s
          /\ (zoom s == 1 -> zoom (onWheel rect e s) == 1)).
Proof.
  intros rect e s [Hlo Hhi].
  cbn [onWheel zoom set_camera set_zoom]. split; intros Hdelta.
  - apply Qltb_lt in Hdelta. rewrite Hdelta.
    pose proof (Q.max_spec 1 (zoom s * (11 # 10))) as Hmax.
    pose proof (Q.min_spec 50 (Qmax 1 (zoom s * (11 # 10)))) as Hmin.
    set (m := Qmax 1 (zoom s * (11 # 10))) in *.
    set (z := Qmin 50 m) in *. clearbody z. clearbody m.
    split; [|intros E]; lra.
  - destruct (Qltb (deltaY e) 0) eqn:E;
      [apply Qltb_lt in E; contradiction|].
    pose proof (Q.max_spec 1 (zoom s * (9 # 10))) as Hmax.
    pose proof (Q.min_spec 50 (Qmax 1 (zoom s * (9 # 10)))) as Hmin.
    set (m := Qmax 1 (zoom s * (9 # 10))) in *.
    set (z := Qmin 50 m) in *. clearbody z. clearbody m.
    split; [|intros E1]; lra.
Qed.

Lemma onWheel_zoom_monotone_witness :
  zoom (startup 800 600)
  <= zoom (onWheel (mkDOMRect 0 0) (mkMouseEvent 0 5 5 (-1)) (startup 800 600))
  /\ (zoom (startup 800 600) == 50 ->
      zoom (onWheel (mkDOMRect 0 0) (mkMouseEvent 0 5 5 (-1))
              (startup 800 600)) == 50).
Proof.
  apply (proj1 (onWheel_zoom_monotone (mkDOMRect 0 0)
                  (mkMouseEvent 0 5 5 (-1)) (startup 800 600)
                  (conj (Qle_bool_imp_le 1 10 eq_refl)
                        (Qle_bool_imp_le 10 50 eq_refl)))).
  reflexivity.
Defined.

(** ** Rendering *)

(** X17: [drawGrid] culls: every rectangle it fills is the zoom-sized
    square of a live key that parses to integer coordinates, placed at the
    floor of its screen position, and that square meets the viewport; there
    is at most one rectangle per live key; and a live cell whose square
    meets the viewport is drawn. *)
Theorem drawGrid_culls :
  forall s : State,
    Forall
      (fun r =>
         rect_w r = zoom s /\ rect_h r = zoom s
         /\ 0 <= inject_Z (rect_x r) + zoom s
         /\ 0 <= inject_Z (rect_y r) + zoom s
         /\ inject_Z (rect_x r) < width s
         /\ inject_Z (rect_y r) < height s
         /\ exists (key : string) (x y : Z),
              In key (aliveCells s)
              /\ destructure2 (parseKey key) = (Some x, Some y)
              /\ rect_x r = worldToScreen1 (cameraX s) (zoom s) x
              /\ rect_y r = worldToScreen1 (cameraY s) (zoom s) y)
      (drawGrid s)
    /\ (List.length (drawGrid s) <= List.length (aliveCells s))%nat
    /\ (forall x y : Z,
          In (cellKey (Some x) (Some y)) (aliveCells s) ->
          0 <= inject_Z (worldToScreen1 (cameraX s) (zoom s) x) + zoom s ->
          0 <= inject_Z (worldToScreen1 (cameraY s) (zoom s) y) + zoom s ->
          inject_Z (worldToScreen1 (cameraX s) (zoom s) x) < width s ->
          inject_Z (worldToScreen1 (cameraY s) (zoom s) y) < height s ->
          In (mkFillRect (worldToScreen1 (cameraX s) (zoom s) x)
                (worldToScreen1 (cameraY s) (zoom s) y) (zoom s) (zoom s))
             (drawGrid s)).
Proof.
  intros s. unfold drawGrid. split; [|split].
  - apply Forall_forall. intros r Hr.
    apply in_flat_map in Hr as (key & Hkey & Hr).
    destruct (destructure2 (parseKey key)) as [[x|] [y|]] eqn:E;
      try contradiction.
    match type of Hr with
    | In _ (if ?b then _ else _) => destruct b eqn:Hb
    end; [|contradiction].
    destruct Hr as [<- | []].
    apply andb_true_iff in Hb as [Hb H4].
    apply andb_true_iff in Hb as [Hb H3].
    apply andb_true_iff in Hb as [H1 H2].
    apply Qle_bool_iff in H1, H2. apply Qltb_lt in H3, H4.
    cbn [rect_x rect_y rect_w rect_h]. repeat split; trivial.
    exists key, x, y. auto.
  - induction (aliveCells s) as [|key l IH]; [apply Nat.le_refl|].
    cbn [flat_map List.length]. rewrite length_app.
    destruct (destructure2 (parseKey key)) as [[x|] [y|]];
      cbn [List.length]; try lia.
    case_tests; cbn [List.length]; lia.
  - intros x y Hin H1 H2 H3 H4.
    apply in_flat_map. exists (cellKey (Some x) (Some y)).
    split; [assumption|].
    change (cellKey (Some x) (Some y)) with (keyOf (x, y)).
    rewrite destructure2_keyOf. cbn [fst snd].
    apply Qle_bool_iff in H1, H2. apply Qltb_lt in H3, H4.
    rewrite H1, H2, H3, H4. now left.
Qed.

(** ** Painting: the draws a click consumes *)

Lemma length_blocks {A B : Type} (h : A -> list B) (m : nat) (xs : list A) :
  (forall x, List.length (h x) = m) ->
  List.length (flat_map h xs) = (List.length xs * m)%nat.
Proof.
  intros Hlen. induction xs as [|x xs IH]; [reflexivity|].
  cbn [flat_map List.length]. rewrite length_app, Hlen, IH. lia.
Qed.

Lemma length_squareKeys (wx wy : Z) :
  List.length (squareKeys wx wy) = (101 * 101)%nat.
Proof.
  unfold squareKeys.
  rewrite (length_blocks _ 101).
  - rewrite length_Zrange. lia.
  - intros x. rewrite length_map, length_Zrange. lia.
Qed.

Lemma paint_same_draws (r1 r2 : nat -> Q) (ks : list string) :
  forall (cells : JSSet.t) (n : nat),
    (forall i, (n <= i < n + List.length ks)%nat -> r1 i = r2 i) ->
    fold_left (paintCell r1) ks (cells, n)
    = fold_left (paintCell r2) ks (cells, n).
Proof.
  induction ks as [|key ks IH]; intros cells n H; [reflexivity|].
  cbn [fold_left List.length] in *.
  assert (E : paintCell r1 (cells, n) key = paintCell r2 (cells, n) key).
  { unfold paintCell. rewrite (H n) by lia. reflexivity. }
  rewrite E. unfold paintCell at 2 4. apply IH.
  intros i Hi. apply H. lia.
Qed.

(** X18: when the anchor has magnitude at most 2^53 - 51, so that the
    loop counters advance, the painting loops of a click end after calling
    [Math.random()] exactly 10201 times (once per cell of the 101 x 101
    square, not 100 x 100), and their result depends on those 10201 draws
    only. *)
Theorem onClick_draws :
  forall (random : nat -> Q) (wx wy : Z) (cells : JSSet.t),
    (Z.abs wx <= twoP53 - 51)%Z -> (Z.abs wy <= twoP53 - 51)%Z ->
    (exists cells' : JSSet.t,
        paintLoop random wx wy cells = Some (cells', (101 * 101)%nat))
    /\ (forall random' : nat -> Q,
          (forall i, (i < 101 * 101)%nat -> random i = random' i) ->
          paintLoop random' wx wy cells = paintLoop random wx wy cells).
Proof.
  intros random wx wy cells Hwx Hwy. split.
  - rewrite (paintLoop_exact random wx wy cells Hwx Hwy).
    exists (fst (paintSquare random wx wy cells)).
    f_equal. rewrite (surjective_pairing (paintSquare random wx wy cells)).
    f_equal. cbn [fst snd].
    rewrite paintSquare_squareKeys.
    destruct (paint_keys random (squareKeys wx wy) cells 0
                (NoDup_squareKeys wx wy)) as (-> & _).
    now rewrite length_squareKeys.
  - intros random' H. rewrite !paintLoop_exact by assumption. f_equal.
    rewrite !paintSquare_squareKeys.
    rewrite (paint_same_draws random random'); [reflexivity|].
    intros i Hi. apply H. rewrite length_squareKeys in Hi. lia.
Qed.

Lemma onClick_draws_witness :
  (exists cells' : JSSet.t,
      paintLoop (fun _ => 3 # 4) 12 (-7) JSSet.empty
      = Some (cells', (101 * 101)%nat))
  /\ (forall random' : nat -> Q,
        (forall i, (i < 101 * 101)%nat -> (3 # 4) = random' i) ->
        paintLoop random' 12 (-7) JSSet.empty
        = paintLoop (fun _ => 3 # 4) 12 (-7) JSSet.empty).
Proof.
  apply (onClick_draws (fun _ => 3 # 4) 12 (-7) JSSet.empty);
    cbn; discriminate.
Defined.

(** ** Keys of coordinates that are not numbers *)

#[local] Open Scope Z_scope.

Lemma toString_num_no_comma (a : num) : has_comma (toString a) = false.
Proof.
  destruct a as [x|]; [apply toString_no_comma | reflexivity].
Qed.

Lemma Number_toString_num (a : num) : Number (toString a) = a.
Proof.
  destruct a as [x|]; [apply Number_toString | reflexivity].
Qed.

(** X19: the key round trip extends to [NaN]: for any two coordinates,
    integers or [NaN], parsing the key gives back the two coordinates, so
    distinct coordinate pairs never share a key. *)
Theorem parseKey_cellKey_num :
  forall a b : num,
    parseKey (cellKey a b) = [a; b]
    /\ destructure2 (parseKey (cellKey a b)) = (a, b)
    /\ (forall a' b' : num, cellKey a b = cellKey a' b' <-> a = a' /\ b = b').
Proof.
  assert (R : forall a b : num, parseKey (cellKey a b) = [a; b]).
  { intros a b. unfold parseKey, cellKey.
    rewrite split_comma_app by apply toString_num_no_comma.
    rewrite split_comma_plain by apply toString_num_no_comma.
    cbn [map]. now rewrite !Number_toString_num. }
  intros a b. split; [apply R|]. split; [now rewrite R|].
  intros a' b'. split.
  - intros E. apply (f_equal parseKey) in E. rewrite !R in E.
    now inversion E.
  - now intros [-> ->].
Qed.

(** ** Population growth *)

Lemma length_add (s : JSSet.t) (k : string) :
  (List.length (JSSet.add s k) <= S (List.length s))%nat.
Proof.
  unfold JSSet.add. destruct (JSSet.has s k); [lia|].
  rewrite length_app. cbn. lia.
Qed.

Lemma length_fold_grow {A : Type} (g : JSSet.t -> A -> JSSet.t)
  (l : list A) :
  (forall a x, (List.length (g a x) <= S (List.length a))%nat) ->
  forall a,
    (List.length (fold_left g l a) <= List.length a + List.length l)%nat.
Proof.
  intros Hg. induction l as [|x l IH]; intros a; cbn [fold_left List.length];
    [lia|].
  specialize (IH (g a x)). specialize (Hg a x). lia.
Qed.

Lemma length_candidatesOf (s : JSSet.t) :
  (List.length (candidatesOf s) <= 9 * List.length s)%nat.
Proof.
  unfold candidatesOf, JSSet.forEach.
  enough (G : forall l acc,
    (List.length (fold_left
       (fun candidates key =>
          let '(x, y) := destructure2 (parseKey key) in
          fold_left
            (fun cands '(dx, dy) =>
               JSSet.add cands (cellKey (add x (Some dx)) (add y (Some dy))))
            offsets (JSSet.add candidates key)) l acc)
     <= List.length acc + 9 * List.length l)%nat).
  { specialize (G s JSSet.empty). cbn [List.length JSSet.empty] in G. lia. }
  induction l as [|key l IH]; intros acc; cbn [fold_left List.length];
    [lia|].
  etransitivity; [apply IH|].
  destruct (destructure2 (parseKey key)) as [x y].
  pose proof (length_add acc key) as H0.
  pose proof (length_fold_grow
                (fun cands '(dx, dy) =>
                   JSSet.add cands
                     (cellKey (add x (Some dx)) (add y (Some dy))))
                offsets) as H1.
  specialize (H1 (fun a d => let '(dx, dy) := d in length_add a _)
                 (JSSet.add acc key)).
  change (List.length offsets) with 8%nat in H1. lia.
Qed.

Lemma length_nextGen_candidates (s : JSSet.t) :
  (List.length (nextGen s) <= List.length (candidatesOf s))%nat.
Proof.
  unfold nextGen, JSSet.forEach.
  generalize (candidatesOf s). intros l.
  enough (G : forall acc,
    (List.length (fold_left
       (fun newAlive key =>
        (
          let '(x, y) := destructure2 (parseKey key) in
          let alive := JSSet.has s key in
          let neighbors := getNeighbors s x y in
          if alive && ((neighbors =? 2) || (neighbors =? 3)) then
            JSSet.add newAlive key
          else if negb alive && (neighbors =? 3) then
            JSSet.add newAlive key
          else newAlive)%Z) l acc)
     <= List.length acc + List.length l)%nat).
  { specialize (G JSSet.empty). cbn [List.length JSSet.empty] in G. lia. }
  induction l as [|key l IH]; intros acc; cbn [fold_left List.length];
    [lia|].
  etransitivity; [apply IH|].
  destruct (destructure2 (parseKey key)) as [x y]. cbv zeta.
  pose proof (length_add acc key). case_tests; lia.
Qed.

(** X20: [nextGen] examines at most nine keys per live key, and the next
    generation is never larger than that candidate set: the population
    grows at most nine-fold in one generation. *)
Theorem nextGen_population_bound :
  forall s : JSSet.t,
    (List.length (candidatesOf s) <= 9 * List.length s)%nat
    /\ (List.length (nextGen s) <= List.length (candidatesOf s))%nat
    /\ (forall k, In k s -> In k (candidatesOf s)).
Proof.
  intros s. split; [apply length_candidatesOf|].
  split; [apply length_nextGen_candidates|].
  intros k Hk. apply In_candidatesOf. exists k. auto.
Qed.

(** ** Frame counter *)

#[local] Open Scope Q_scope.

Lemma loop_fps (t : Q) (s : State) :
  (lastFpsUpdate s + 1000 < t ->
     fps (loop t s) = framesThisSecond s
     /\ framesThisSecond (loop t s) = 1%Z
     /\ lastFpsUpdate (loop t s) = t)
  /\ (t <= lastFpsUpdate s + 1000 ->
        fps (loop t s) = fps s
        /\ framesThisSecond (loop t s) = (framesThisSecond s + 1)%Z
        /\ lastFpsUpdate (loop t s) = lastFpsUpdate s).
Proof.
  unfold loop. split; intros H.
  - apply Qltb_lt in H. rewrite H.
    case_tests; repeat split; reflexivity.
  - destruct (Qltb (lastFpsUpdate s + 1000) t) eqn:E.
    + apply Qltb_lt in E. lra.
    + case_tests; repeat split; reflexivity.
Qed.

(** X21: the FPS figure is a count of frames: while frames arrive no later
    than 1000 ms after the last update, [fps] keeps its value and every
    frame is counted; the first frame later than that publishes the count as
    [fps], restarts the counter at 1 and records its timestamp. *)
Theorem fps_counts_frames :
  forall (ts : list Q) (t1 : Q) (s : State),
    Forall (fun t => t <= lastFpsUpdate s + 1000) ts ->
    lastFpsUpdate s + 1000 < t1 ->
    (fps (run (frames ts) s) = fps s
     /\ framesThisSecond (run (frames ts) s)
        = (framesThisSecond s + Z.of_nat (List.length ts))%Z)
    /\ fps (loop t1 (run (frames ts) s))
       = (framesThisSecond s + Z.of_nat (List.length ts))%Z
    /\ framesThisSecond (loop t1 (run (frames ts) s)) = 1%Z
    /\ lastFpsUpdate (loop t1 (run (frames ts) s)) = t1.
Proof.
  intros ts t1 s Hts Ht1.
  assert (G : forall s0,
    Forall (fun t => t <= lastFpsUpdate s0 + 1000) ts ->
    fps (run (frames ts) s0) = fps s0
    /\ framesThisSecond (run (frames ts) s0)
       = (framesThisSecond s0 + Z.of_nat (List.length ts))%Z
    /\ lastFpsUpdate (run (frames ts) s0) = lastFpsUpdate s0).
  { clear. induction ts as [|t ts IH]; intros s0 H.
    - change (run (frames []) s0) with s0. cbn [List.length Z.of_nat].
      repeat split; trivial. lia.
    - inversion H as [|? ? Ht Hrest]. subst.
      unfold frames. cbn [map]. rewrite run_cons. cbn [handle].
      fold (frames ts).
      destruct (proj2 (loop_fps t s0) Ht) as (Hf & Hc & Hu).
      destruct (IH (loop t s0)) as (Hf' & Hc' & Hu').
      { now rewrite Hu. }
      rewrite Hf', Hc', Hu', Hf, Hc, Hu. repeat split; trivial.
      cbn [List.length]. lia. }
  destruct (G s Hts) as (Hf & Hc & Hu).
  split; [now split|].
  destruct (proj1 (loop_fps t1 (run (frames ts) s))) as (Hf1 & Hc1 & Hu1).
  { now rewrite Hu. }
  rewrite Hf1, Hc1, Hu1, Hc. now repeat split.
Qed.

Lemma fps_counts_frames_witness :
  (fps (run (frames [16; 33; 50]%Q) (startup 800 600))
   = fps (startup 800 600)
   /\ framesThisSecond (run (frames [16; 33; 50]%Q) (startup 800 600))
      = (framesThisSecond (startup 800 600) + Z.of_nat 3)%Z)
  /\ fps (loop 1016 (run (frames [16; 33; 50]%Q) (startup 800 600)))
     = (framesThisSecond (startup 800 600) + Z.of_nat 3)%Z
  /\ framesThisSecond (loop 1016 (run (frames [16; 33; 50]%Q)
                                    (startup 800 600))) = 1%Z
  /\ lastFpsUpdate (loop 1016 (run (frames [16; 33; 50]%Q)
                                 (startup 800 600))) = 1016.
Proof.
  apply (fps_counts_frames [16; 33; 50]%Q 1016 (startup 800 600)).
  - repeat constructor; discriminate.
  - reflexivity.
Defined.
